(** * A shallow embedding of TensorView's shapes, spans, containers,
    sub-views, iterators and transformers.

    [index_t] is [unsigned long]: a 64-bit unsigned integer, modelled as a
    [Z] in [0, 2^64) with the wrap-around of every operation written out.
    The [TENSOR_DEBUG] switch is the boolean [dbg] threaded through every
    operation that has a debug-only check. *)

From Stdlib Require Import ZArith List Lia Bool.
Import ListNotations.
Open Scope Z_scope.

(** ** index_t arithmetic (tensorview_config.hpp: [using index_t = unsigned long]) *)

Definition modulus : Z := 2 ^ 64.
Definition to_index (z : Z) : Z := z mod modulus.
Definition iadd (a b : Z) : Z := to_index (a + b).
Definition isub (a b : Z) : Z := to_index (a - b).
Definition imul (a b : Z) : Z := to_index (a * b).
(** unsigned division of two [index_t] values *)
Definition idiv (a b : Z) : Z := a / b.

(** ** Errors (errors.hpp) and a small error monad *)

Inductive error : Type :=
| OutOfRange   (** [tensor_out_of_range] *)
| BadAccess    (** [tensor_bad_memory_access] *)
| BadShape     (** [tensor_bad_shape] *)
| Rejected     (** refused at compile time by a [static_assert] or overload resolution *)
| Undefined.   (** undefined behaviour: a null or out-of-buffer read in a release build *)

Definition result (A : Type) : Type := (error + A)%type.

Definition ret {A} (a : A) : result A := inr a.
Definition fail {A} (e : error) : result A := inl e.
Definition bind {A B} (m : result A) (k : A -> result B) : result B :=
  match m with
  | inl e => inl e
  | inr a => k a
  end.

Notation "x <- m ;; k" := (bind m (fun x => k))
  (at level 61, m at next level, right associativity).

(** [#ifdef TENSOR_DEBUG if (cond) raise(); #endif] *)
Definition debug_check (dbg cond : bool) (e : error) : result unit :=
  if dbg && cond then inl e else inr tt.

(** ** span.hpp *)

Record span : Type := mkspan { sbegin : Z; send : Z; sstride : Z }.

(** [span(Begin, End, inc = 1)] *)
Definition span_make (b e : Z) : span := mkspan (to_index b) (to_index e) 1.

(** [span::size]: [(end - begin) / stride] *)
Definition span_size (x : span) : Z := idiv (isub (send x) (sbegin x)) (sstride x).

(** [operator+(const span&, index_t)] and [operator+(index_t, const span&)] *)
Definition span_add (x : span) (i : Z) : span :=
  mkspan (iadd (sbegin x) i) (iadd (send x) i) (sstride x).

(** [operator*(index_t, const span&)] *)
Definition span_scale (s : Z) (x : span) : span :=
  mkspan (imul s (sbegin x)) (imul s (send x)) (imul s (sstride x)).

(** [add(i, spans, ...)]: only the first span is shifted *)
Definition spans_add (i : Z) (l : list span) : list span :=
  match l with
  | [] => []
  | x :: r => span_add x i :: r
  end.

(** [scale(s, spans, ...)] *)
Definition spans_scale (s : Z) (l : list span) : list span := map (span_scale s) l.

(** [details::offset(spans)]: the sum of the begins *)
Definition spans_offset (l : list span) : Z :=
  fold_left (fun acc x => iadd acc (sbegin x)) l 0.

(** An index expression evaluates to a linear offset ([index_t]) or to a
    slice descriptor: a single [span] (a list of length one) or a
    [std::array<span, N>] (the concatenation of per-dimension spans). *)
Inductive idx_result : Type :=
| IOffset (i : Z)
| ISpans (l : list span).

(** The [operator+] overloads between offsets, spans and span arrays. *)
Definition ires_add (a b : idx_result) : idx_result :=
  match a, b with
  | IOffset i, IOffset j => IOffset (iadd i j)
  | IOffset i, ISpans l => ISpans (spans_add i l)
  | ISpans l, IOffset j => ISpans (spans_add j l)
  | ISpans l1, ISpans l2 => ISpans (l1 ++ l2)
  end.

(** The [operator*] overloads scaling an offset, a span or a span array. *)
Definition ires_scale (s : Z) (r : idx_result) : idx_result :=
  match r with
  | IOffset i => IOffset (imul s i)
  | ISpans l => ISpans (spans_scale s l)
  end.

(** An argument of an indexing call: an integer, a [span] or [all{}]. *)
Inductive arg : Type :=
| AIdx (i : Z)
| ASpan (x : span)
| AAll.

(** ** DynamicTensorShape.hpp *)

Record dyn_shape : Type := mk_dyn_shape { dlen : Z; dshape : list Z }.

(** The head of each [compute_index] overload, for dimension extent [e]:
    the debug check and the contribution of this dimension.  The same head
    is used by [FixedTensorShape::compute_index]. *)
Definition dim_arg (dbg : bool) (e : Z) (a : arg) : result idx_result :=
  match a with
  | AIdx i =>
      let i := to_index i in
      _ <- debug_check dbg (e <=? i) OutOfRange ;;
      ret (IOffset i)
  | ASpan x =>
      _ <- debug_check dbg (e <? send x) OutOfRange ;;
      ret (ISpans [x])
  | AAll => ret (ISpans [span_make 0 e])
  end.

(** [DynamicTensorShape::compute_index<Dim>]: [head + _shape[Dim] * rest]
    while [Dim + 1 < Rank], [head] on the last dimension. *)
Fixpoint dyn_compute_index (dbg : bool) (shape : list Z) (args : list arg)
  : result idx_result :=
  match shape, args with
  | e :: shape', a :: args' =>
      h <- dim_arg dbg e a ;;
      match shape' with
      | [] => ret h
      | _ :: _ =>
          r <- dyn_compute_index dbg shape' args' ;;
          ret (ires_add h (ires_scale e r))
      end
  | _, _ => fail Rejected
  end.

(** [DynamicTensorShape::operator()]: [static_assert(sizeof...(Indices) == Rank)] *)
Definition dyn_eval (dbg : bool) (s : dyn_shape) (args : list arg) : result idx_result :=
  if Nat.eqb (length args) (length (dshape s))
  then dyn_compute_index dbg (dshape s) args
  else fail Rejected.

(** [DynamicTensorShape::operator[]]: the identity, with a debug bound check *)
Definition dyn_flat (dbg : bool) (s : dyn_shape) (index : Z) : result Z :=
  let index := to_index index in
  _ <- debug_check dbg (dlen s <=? index) OutOfRange ;;
  ret index.

(** [(1 * ... * shape_)], evaluated left to right *)
Definition prod (l : list Z) : Z := fold_left Z.mul l 1.

(** [DynamicTensorShape(Shape... shape_)] for a shape of rank [rank]; the
    arguments keep their own (signed) type for the debug test [shape_ < 0];
    missing trailing extents are filled with 1. *)
Definition dyn_make (dbg : bool) (rank : nat) (shape_ : list Z) : result dyn_shape :=
  if Nat.eqb rank 0 || Nat.eqb (length shape_) 0 || Nat.ltb rank (length shape_)
  then fail Rejected
  else
    _ <- debug_check dbg (existsb (fun s => s <? 0) shape_) BadShape ;;
    ret (mk_dyn_shape (to_index (prod shape_))
                      (map to_index shape_ ++ repeat 1 (rank - length shape_))).

(** [DynamicTensorShape()]: [len{0}, _shape{}] *)
Definition dyn_default (rank : nat) : dyn_shape := mk_dyn_shape 0 (repeat 0 rank).

(** [DynamicTensorShape::reshape(Sizes... new_shape)] *)
Definition dyn_reshape (dbg : bool) (s : dyn_shape) (new_shape : list Z) : result dyn_shape :=
  let rank := length (dshape s) in
  if Nat.ltb rank (length new_shape) then fail Rejected
  else
    _ <- debug_check dbg (existsb (fun x => x <? 0) new_shape) BadShape ;;
    ret (mk_dyn_shape (to_index (prod new_shape))
                      (map to_index new_shape ++ repeat 1 (rank - length new_shape))).

(** ** FixedTensorShape.hpp *)

(** [FixedTensorShape<Shape...>::compute_index<N, Ns...>]: recursion on the
    remaining indices, [head + N * rest] until none is left. *)
Fixpoint fixed_compute_index (dbg : bool) (ns : list Z) (args : list arg)
  : result idx_result :=
  match ns, args with
  | n :: ns', a :: args' =>
      h <- dim_arg dbg n a ;;
      match args' with
      | [] => ret h
      | _ :: _ =>
          r <- fixed_compute_index dbg ns' args' ;;
          ret (ires_add h (ires_scale n r))
      end
  | _, _ => fail Rejected
  end.

(** [FixedTensorShape::operator()]: [static_assert(sizeof...(Indices) == rank)] *)
Definition fixed_eval (dbg : bool) (ns : list Z) (args : list arg) : result idx_result :=
  if Nat.eqb (length args) (length ns)
  then fixed_compute_index dbg ns args
  else fail Rejected.

(** [static constexpr index_t len = (1 * ... * Shape)] *)
Definition fixed_len (ns : list Z) : Z := to_index (prod ns).

(** [FixedTensorShape::operator[]] *)
Definition fixed_flat (dbg : bool) (ns : list Z) (index : Z) : result Z :=
  let index := to_index index in
  _ <- debug_check dbg (fixed_len ns <=? index) OutOfRange ;;
  ret index.

(** ** StridedShape (FixedTensorShape.hpp, second half) *)

(** [StridedShape<Rank>] ([Rank > 1]) and its specialisation [StridedShape<1>]. *)
Inductive strided : Type :=
| Strided1 (len stride : Z)
| StridedN (len : Z) (shape strides : list Z).

(** [StridedShape<Rank>(const std::array<span, Rank>&)] *)
Definition strided_make (spans : list span) : strided :=
  StridedN (fold_left (fun acc x => imul acc (span_size x)) spans 1)
           (map span_size spans) (map sstride spans).

(** [StridedShape<1>(const span&)] *)
Definition strided1_make (x : span) : strided := Strided1 (span_size x) (sstride x).

(** The head of [StridedShape<Rank>::compute_index<Dim>]: the argument
    scaled by [strides[Dim]]. *)
Definition strided_dim_arg (dbg : bool) (e st : Z) (a : arg) : result idx_result :=
  match a with
  | AIdx i =>
      let i := to_index i in
      _ <- debug_check dbg (e <=? i) OutOfRange ;;
      ret (IOffset (imul st i))
  | ASpan x =>
      _ <- debug_check dbg (e <? send x) OutOfRange ;;
      ret (ISpans [span_scale st x])
  | AAll => ret (ISpans [span_scale st (span_make 0 e)])
  end.

(** [StridedShape<Rank>::compute_index<Dim>]: [head + rest] while
    [Dim + 1 < Rank]; indices past the last dimension are not looked at. *)
Fixpoint strided_compute_index (dbg : bool) (shape strides : list Z) (args : list arg)
  : result idx_result :=
  match shape, strides, args with
  | e :: shape', st :: strides', a :: args' =>
      h <- strided_dim_arg dbg e st a ;;
      match shape' with
      | [] => ret h
      | _ :: _ =>
          r <- strided_compute_index dbg shape' strides' args' ;;
          ret (ires_add h r)
      end
  | _, _, _ => fail Rejected
  end.

(** [StridedShape<1>::operator()] for its three overloads *)
Definition strided1_eval (dbg : bool) (len stride : Z) (args : list arg) : result idx_result :=
  match args with
  | [AIdx i] =>
      let i := to_index i in
      _ <- debug_check dbg (len <=? i) OutOfRange ;;
      ret (IOffset (imul stride i))
  | [ASpan x] =>
      _ <- debug_check dbg (len <=? send x) OutOfRange ;;
      ret (ISpans [span_scale stride x])
  | [AAll] => ret (ISpans [span_scale stride (span_make 0 len)])
  | _ => fail Rejected
  end.

Definition strided_eval (dbg : bool) (s : strided) (args : list arg) : result idx_result :=
  match s with
  | Strided1 len stride => strided1_eval dbg len stride args
  | StridedN _ shape strides => strided_compute_index dbg shape strides args
  end.

(** [StridedShape<Rank>::operator[]] returns [index * strides[0]];
    [StridedShape<1>::operator[]] returns [index * stride]. *)
Definition strided_flat (dbg : bool) (s : strided) (index : Z) : result Z :=
  let index := to_index index in
  match s with
  | Strided1 len stride =>
      _ <- debug_check dbg (len <=? index) OutOfRange ;;
      ret (imul index stride)
  | StridedN len _ strides =>
      _ <- debug_check dbg (len <=? index) OutOfRange ;;
      ret (imul index (hd 0 strides))
  end.

Definition strided_size (s : strided) : Z :=
  match s with Strided1 len _ => len | StridedN len _ _ => len end.

Definition strided_extents (s : strided) : list Z :=
  match s with Strided1 len _ => [len] | StridedN _ shape _ => shape end.

Definition strided_strides (s : strided) : list Z :=
  match s with Strided1 _ stride => [stride] | StridedN _ _ strides => strides end.

(** ** The three shape variants behind one interface *)

Inductive shape : Type :=
| SDyn (s : dyn_shape)
| SFixed (ns : list Z)
| SStrided (s : strided).

(** [shape(d)] for every [d]: the extents of a shape *)
Definition shape_extents (sh : shape) : list Z :=
  match sh with
  | SDyn s => dshape s
  | SFixed ns => ns
  | SStrided s => strided_extents s
  end.

(** [Shape::operator()(indices...)] *)
Definition shape_eval (dbg : bool) (sh : shape) (args : list arg) : result idx_result :=
  match sh with
  | SDyn s => dyn_eval dbg s args
  | SFixed ns => fixed_eval dbg ns args
  | SStrided s => strided_eval dbg s args
  end.

(** [Shape::operator[](index)] *)
Definition shape_flat (dbg : bool) (sh : shape) (index : Z) : result Z :=
  match sh with
  | SDyn s => dyn_flat dbg s index
  | SFixed ns => fixed_flat dbg ns index
  | SStrided s => strided_flat dbg s index
  end.

(** [Shape::size()] *)
Definition shape_size (sh : shape) : Z :=
  match sh with
  | SDyn s => dlen s
  | SFixed ns => fixed_len ns
  | SStrided s => strided_size s
  end.

(** ** Containers (ViewContainer.hpp, ContainerTraits.hpp, Transformer.hpp) *)

Section Containers.

Variable V : Type.

(** The memory the pointers point into: address [a] holds the [a]-th value. *)
Definition memory : Type := list V.

Definition load (mem : memory) (a : Z) : result V :=
  if a <? 0 then fail Undefined
  else match nth_error mem (Z.to_nat a) with
       | Some v => ret v
       | None => fail Undefined
       end.

(** [ViewContainer<T>] holds a pointer ([None] is [nullptr]);
    [TransformedContainerWrapper<Container, Func>] holds a container and a
    function. *)
Inductive container : Type :=
| ViewC (ptr : option Z)
| TransformedC (inner : container) (func : V -> V).

(** [ViewContainer::operator[]]: a null check in debug builds, then [ptr[index]] *)
Definition view_get (dbg : bool) (mem : memory) (ptr : option Z) (index : Z) : result V :=
  match ptr with
  | None => if dbg then fail BadAccess else fail Undefined
  | Some p => load mem (p + index)
  end.

(** [Container::operator[]]; [TransformedContainerWrapper::operator[]]
    applies [_func] to the inner container's value. *)
Fixpoint container_get (dbg : bool) (mem : memory) (c : container) (index : Z) : result V :=
  match c with
  | ViewC ptr => view_get dbg mem ptr index
  | TransformedC inner f => v <- container_get dbg mem inner index ;; ret (f v)
  end.

(** [container_traits<C>::make_view(x, offset)]: [x.data() + offset] for a
    view; the same function around a view of the inner container for a
    transformed container. *)
Fixpoint make_view (c : container) (offset : Z) : container :=
  match c with
  | ViewC ptr => ViewC (option_map (fun p => p + offset) ptr)
  | TransformedC inner f => TransformedC (make_view inner offset) f
  end.

(** Number of [TransformedContainerWrapper] layers. *)
Fixpoint transform_depth (c : container) : nat :=
  match c with
  | ViewC _ => 0
  | TransformedC inner _ => S (transform_depth inner)
  end.

(** ** BaseTensor.hpp *)

(** Which user-facing class a [BaseTensor] is: the overloads of [transform]
    are selected on it. *)
Inductive tensor_kind : Type :=
| KTensorView | KFixedTensorView | KSubView | KTransformer.

Record tensor : Type := mk_tensor { tkind : tensor_kind; tshape : shape; tcont : container }.

(** What [BaseTensor::operator()] returns: an element or a sub-view. *)
Inductive access : Type :=
| Elem (v : V)
| Sub (t : tensor).

(** [make_subview(container, spans)] and [make_subview(container, s)]: a
    [StridedShape] built from the spans and a view offset by their begins. *)
Definition make_subview (c : container) (l : list span) : tensor :=
  match l with
  | [x] => mk_tensor KSubView (SStrided (strided1_make x)) (make_view c (sbegin x))
  | _ => mk_tensor KSubView (SStrided (strided_make l)) (make_view c (spans_offset l))
  end.

(** [BaseTensor::operator()(indices...)] = [subview(_shape(indices...))] *)
Definition tensor_at (dbg : bool) (mem : memory) (t : tensor) (args : list arg) : result access :=
  r <- shape_eval dbg (tshape t) args ;;
  match r with
  | IOffset i => v <- container_get dbg mem (tcont t) i ;; ret (Elem v)
  | ISpans l => ret (Sub (make_subview (tcont t) l))
  end.

(** [BaseTensor::operator[](index)] = [_container[_shape[index]]] *)
Definition tensor_lin (dbg : bool) (mem : memory) (t : tensor) (index : Z) : result V :=
  k <- shape_flat dbg (tshape t) index ;;
  container_get dbg mem (tcont t) k.

Definition tensor_size (t : tensor) : Z := shape_size (tshape t).

(** [TensorView<scalar, Rank>(data, shape...)] *)
Definition tensor_view_make (dbg : bool) (rank : nat) (data : option Z) (extents : list Z)
  : result tensor :=
  s <- dyn_make dbg rank extents ;;
  ret (mk_tensor KTensorView (SDyn s) (ViewC data)).

(** [TensorView::data()] *)
Definition tensor_data (t : tensor) : option Z :=
  match tcont t with
  | ViewC p => p
  | TransformedC _ _ => None
  end.

(** [TensorView::reshape(new_shape...)]: [this->_shape.reshape(new_shape...)];
    it is only declared for a [TensorView], whose shape is a [DynamicTensorShape]. *)
Definition tensor_view_reshape (dbg : bool) (t : tensor) (new_shape : list Z) : result tensor :=
  match tkind t, tshape t with
  | KTensorView, SDyn s =>
      s' <- dyn_reshape dbg s new_shape ;;
      ret (mk_tensor (tkind t) (SDyn s') (tcont t))
  | _, _ => fail Rejected
  end.

(** A [TensorView] as a program state: the memory it points into and the view. *)
Definition reshape_step (dbg : bool) (st : memory * tensor) (new_shape : list Z)
  : result (memory * tensor) :=
  let (mem, t) := st in
  t' <- tensor_view_reshape dbg t new_shape ;;
  ret (mem, t').

(** ** TensorIterator *)

Record iterator : Type := mk_iterator { it_shape : shape; it_cont : container; it_pos : Z }.

(** [TensorIterator::operator*]: [_container[_shape[_pos]]] *)
Definition it_deref (dbg : bool) (mem : memory) (it : iterator) : result V :=
  k <- shape_flat dbg (it_shape it) (it_pos it) ;;
  container_get dbg mem (it_cont it) k.

(** [TensorIterator::operator==]: positions only *)
Definition it_eqb (a b : iterator) : bool := it_pos a =? it_pos b.

(** [TensorIterator::operator+(n)] *)
Definition it_plus (it : iterator) (n : Z) : iterator :=
  mk_iterator (it_shape it) (it_cont it) (it_pos it + n).

(** [BaseTensor::begin()] and [BaseTensor::end()] *)
Definition tensor_begin (t : tensor) : iterator := mk_iterator (tshape t) (make_view (tcont t) 0) 0.
Definition tensor_end (t : tensor) : iterator :=
  mk_iterator (tshape t) (make_view (tcont t) 0) (tensor_size t).

(** A value-initialised [TensorIterator<Shape, ViewContainer<T>>{}]: the
    default shape, a [nullptr] view and position [0]. *)
Definition it_default (sh : shape) : iterator := mk_iterator sh (ViewC None) 0.

(** ** Transformer.hpp *)

(** [_ComposedFunction<Inner, Outer>::operator()]: [_outer(_inner(value))] *)
Definition composed (inner outer : V -> V) : V -> V := fun x => outer (inner x).

(** [transform(func, tensor)]; [rvalue] selects the overload for a
    temporary argument.  A [Transformer] argument goes to the overloads that
    compose the functions (the rvalue one builds [g(f(x))] in a lambda, the
    lvalue ones a [_ComposedFunction{f, g}]); any other tensor is wrapped. *)
Definition transform (rvalue : bool) (g : V -> V) (t : tensor) : tensor :=
  match tkind t, tcont t with
  | KTransformer, TransformedC inner f =>
      if rvalue
      then mk_tensor KTransformer (tshape t) (TransformedC inner (fun x => g (f x)))
      else mk_tensor KTransformer (tshape t) (TransformedC (make_view inner 0) (composed f g))
  | _, c =>
      if rvalue
      then mk_tensor KTransformer (tshape t) (TransformedC c g)
      else mk_tensor KTransformer (tshape t) (TransformedC (make_view c 0) g)
  end.

(** A chain of maps, the first function applied first. *)
Fixpoint transform_chain (rvalue : bool) (fs : list (V -> V)) (t : tensor) : tensor :=
  match fs with
  | [] => t
  | f :: fs' => transform_chain rvalue fs' (transform rvalue f t)
  end.

End Containers.

Arguments ViewC {V}.
Arguments TransformedC {V}.
Arguments mk_tensor {V}.
Arguments Elem {V}.
Arguments Sub {V}.
Arguments mk_iterator {V}.
Arguments tkind {V}.
Arguments tshape {V}.
Arguments tcont {V}.
Arguments it_shape {V}.
Arguments it_cont {V}.
Arguments it_pos {V}.

(** ** Concrete tensors used by the examples *)

Definition buffer6 : list Z := [1; 2; 3; 4; 5; 6].

(** [TensorView<double, 4>(data, 5, 10, 2, 5)] over the pointer [p]. *)
Definition view_5_10_2_5 {V : Type} (p : option Z) : tensor V :=
  mk_tensor KTensorView (SDyn (mk_dyn_shape 500 [5; 10; 2; 5])) (ViewC p).

(** The index expression [(all{}, 2, span(0, 1), span(2, 4))]. *)
Definition subview_args : list arg := [AAll; AIdx 2; ASpan (span_make 0 1); ASpan (span_make 2 4)].

(** Every coordinate of a [(5, 1, 2)] sub-view, first index fastest. *)
Definition coords_5_1_2 : list (Z * Z * Z) :=
  flat_map (fun k => flat_map (fun j => map (fun i => (i, j, k)) [0; 1; 2; 3; 4]) [0]) [0; 1].

(** ** Arithmetic reading of an all-integer index *)

(** [i1 + e1 * (i2 + e2 * (... + e_{N-1} * iN))] *)
Fixpoint col_major (es is : list Z) : Z :=
  match es, is with
  | _ :: [], i :: _ => i
  | e :: es', i :: is' => i + e * col_major es' is'
  | _, _ => 0
  end.

(** [sum_d strides[d] * i_d] *)
Fixpoint stride_dot (sts is : list Z) : Z :=
  match sts, is with
  | st :: sts', i :: is' => st * i + stride_dot sts' is'
  | _, _ => 0
  end.

(** Every index lies in [0, extent) of its dimension. *)
Definition in_range (es is : list Z) : Prop := Forall2 (fun e i => 0 <= i < e) es is.

(** Add one to the index of dimension [d]. *)
Fixpoint incr_at (d : nat) (is : list Z) : list Z :=
  match is, d with
  | [], _ => []
  | i :: is', O => (i + 1) :: is'
  | i :: is', S d' => i :: incr_at d' is'
  end.

(** The inverse of [col_major]: the coordinates of a linear position. *)
Fixpoint unravel (es : list Z) (n : Z) : list Z :=
  match es with
  | [] => []
  | [_] => [n]
  | e :: es' => n mod e :: unravel es' (n / e)
  end.

(** ** Further operations *)

(** [FixedTensorShape::shape(d)]: a debug check [d >= rank], then [_shape[d]] *)
Definition fixed_shape_at (dbg : bool) (ns : list Z) (d : Z) : result Z :=
  let d := to_index d in
  _ <- debug_check dbg (Z.of_nat (length ns) <=? d) OutOfRange ;;
  match nth_error ns (Z.to_nat d) with
  | Some e => ret e
  | None => fail Undefined
  end.

(** [DynamicTensorShape::shape(d)]: [_shape[d]], with no check at all *)
Definition dyn_shape_at (s : dyn_shape) (d : Z) : result Z :=
  let d := to_index d in
  match nth_error (dshape s) (Z.to_nat d) with
  | Some e => ret e
  | None => fail Undefined
  end.

(** [TensorIterator::operator-(const TensorIterator&)] *)
Definition it_minus {V : Type} (a b : iterator V) : Z := it_pos a - it_pos b.

(** The parent coordinate [begin + stride * i] of index [i] of each span. *)
Fixpoint slice_coords (xs : list span) (is : list Z) : list Z :=
  match xs, is with
  | x :: xs', i :: is' => (sbegin x + sstride x * i) :: slice_coords xs' is'
  | _, _ => []
  end.

(** The sum of the begins of a list of spans, in [Z]. *)
Fixpoint sum_begins (l : list span) : Z :=
  match l with
  | [] => 0
  | x :: l' => sbegin x + sum_begins l'
  end.

(** A span argument of a dimension of extent [e] as the slices below take it:
    [0 <= begin <= end <= e] and [1 <= stride <= e]. *)
Definition span_fits (e : Z) (x : span) : Prop :=
  0 <= sbegin x <= send x /\ send x <= e /\ 1 <= sstride x <= e.

(** [TensorView()]: [base_tensor(shape_type(), container_type(nullptr))] *)
Definition tensor_view_default {V : Type} (rank : nat) : tensor V :=
  mk_tensor KTensorView (SDyn (dyn_default rank)) (ViewC None).

(** The argument [a] of a dimension of extent [e] fails the debug check of
    [compute_index]: an integer at or past the extent, or a span ending
    past it. *)
Definition arg_out (e : Z) (a : arg) : Prop :=
  match a with
  | AIdx i => e <= to_index i
  | ASpan x => e < send x
  | AAll => False
  end.

(** * Theorems *)

Lemma view_5_10_2_5_make : forall dbg p,
  tensor_view_make Z dbg 4 p [5; 10; 2; 5] = inr (@view_5_10_2_5 Z p).
Proof. intros [|] p; reflexivity. Qed.

(** ** C3 *)

(** C3: over the buffer [1,2,3,4,5,6] with extents (2,3), a TensorView
    gives T(0,0)=1, T(1,0)=2, T(0,1)=3, T(1,1)=4, T(0,2)=5, T(1,2)=6 and
    T[3]=4, in debug and in release builds. *)
Theorem access_example_2x3 : forall dbg, exists T,
  tensor_view_make Z dbg 2 (Some 0) [2; 3] = inr T /\
  tensor_at Z dbg buffer6 T [AIdx 0; AIdx 0] = inr (Elem 1) /\
  tensor_at Z dbg buffer6 T [AIdx 1; AIdx 0] = inr (Elem 2) /\
  tensor_at Z dbg buffer6 T [AIdx 0; AIdx 1] = inr (Elem 3) /\
  tensor_at Z dbg buffer6 T [AIdx 1; AIdx 1] = inr (Elem 4) /\
  tensor_at Z dbg buffer6 T [AIdx 0; AIdx 2] = inr (Elem 5) /\
  tensor_at Z dbg buffer6 T [AIdx 1; AIdx 2] = inr (Elem 6) /\
  tensor_lin Z dbg buffer6 T 3 = inr 4.
Proof.
  intros [|]; (eexists; split; [reflexivity | vm_compute; repeat split]).
Qed.

(** ** C7 *)

(** C7: in a debug build [DynamicTensorShape<2>(0, 3)] and
    [reshape(0, 3)] succeed and yield a shape with extent 0 and size 0:
    the debug test is [shape_ < 0], so only negative extents raise BadShape. *)
Theorem dyn_shape_accepts_zero_extent :
  dyn_make true 2 [0; 3] = inr (mk_dyn_shape 0 [0; 3]) /\
  dyn_reshape true (mk_dyn_shape 6 [2; 3]) [0; 3] = inr (mk_dyn_shape 0 [0; 3]) /\
  dyn_make true 2 [-1; 3] = inl BadShape.
Proof. vm_compute. repeat split. Qed.

(** ** C9 *)

(** C9: in a debug build, indexing a rank-1 strided shape of length [len]
    with [span(0, len)] signals OutOfRange (its test is [x.end >= len]),
    whereas the span check of the Dynamic, Fixed and rank>1 Strided
    shapes fails exactly when [x.end] exceeds the extent. *)
Theorem strided1_full_span_out_of_range :
  (forall V (mem : memory V) len stride c,
     tensor_at V true mem (mk_tensor KSubView (SStrided (Strided1 len stride)) c)
               [ASpan (mkspan 0 len 1)] = inl OutOfRange) /\
  (forall e x, dim_arg true e (ASpan x) = inl OutOfRange <-> e < send x) /\
  (forall e st x, strided_dim_arg true e st (ASpan x) = inl OutOfRange <-> e < send x).
Proof.
  split; [|split].
  - intros V mem len stride c.
    unfold tensor_at, shape_eval, strided_eval, strided1_eval, debug_check; cbn.
    rewrite Z.leb_refl. reflexivity.
  - intros e x. cbn. destruct (Z.ltb_spec e (send x)) as [Hlt|Hge]; cbn; split; intro Hr;
      try reflexivity; try lia; discriminate.
  - intros e st x. cbn. destruct (Z.ltb_spec e (send x)) as [Hlt|Hge]; cbn; split; intro Hr;
      try reflexivity; try lia; discriminate.
Qed.

Lemma strided1_full_span_out_of_range_witness :
  tensor_at Z true buffer6 (mk_tensor KSubView (SStrided (Strided1 3 1)) (ViewC (Some 0)))
            [ASpan (mkspan 0 3 1)] = inl OutOfRange /\
  dim_arg true 3 (ASpan (mkspan 0 3 1)) <> inl OutOfRange.
Proof.
  split.
  - exact (proj1 strided1_full_span_out_of_range Z buffer6 3 1 (ViewC (Some 0))).
  - intro H. apply (proj1 (proj1 (proj2 strided1_full_span_out_of_range) 3 _)) in H.
    cbn in H. lia.
Defined.

(** The rank-1 sub-view [T(all{}, 0)] of a 3x2 TensorView has length 3 and
    [sub(span(0, 3))] raises OutOfRange in a debug build. *)
Lemma strided1_full_span_example :
  exists sub,
    tensor_at Z true buffer6 (mk_tensor KTensorView (SDyn (mk_dyn_shape 6 [3; 2])) (ViewC (Some 0)))
              [AAll; AIdx 0] = inr (Sub sub) /\
    tensor_size Z sub = 3 /\
    tensor_at Z true buffer6 sub [ASpan (span_make 0 3)] = inl OutOfRange.
Proof. eexists; split; [reflexivity|]; vm_compute; split; reflexivity. Qed.

(** ** C10 *)

(** C10: a successful [TensorView::reshape] leaves the memory and the
    container (hence [data()]) untouched, and [size()] is the product of
    the supplied extents as an [index_t], which is the product itself
    whenever that fits in an [index_t]. *)
Theorem tensor_view_reshape_frame : forall V dbg (mem : memory V) (t : tensor V) ext mem' t',
  reshape_step V dbg (mem, t) ext = inr (mem', t') ->
  mem' = mem /\ tcont t' = tcont t /\ tensor_data V t' = tensor_data V t /\
  tensor_size V t' = to_index (prod ext) /\
  (0 <= prod ext < modulus -> tensor_size V t' = prod ext).
Proof.
  intros V dbg mem t ext mem' t' H.
  unfold reshape_step, tensor_view_reshape in H.
  destruct t as [k sh c]; cbn in H.
  destruct k; try discriminate H.
  destruct sh as [s| |]; try discriminate H.
  unfold dyn_reshape in H.
  destruct (Nat.ltb (length (dshape s)) (length ext)); [discriminate H|].
  destruct (debug_check dbg (existsb (fun x => x <? 0) ext) BadShape); cbn in H;
    [discriminate H|].
  injection H as <- <-.
  unfold tensor_data, tensor_size; cbn.
  repeat split; try reflexivity.
  intros Hb. unfold to_index. apply Z.mod_small. exact Hb.
Qed.

Lemma tensor_view_reshape_frame_witness :
  reshape_step Z true (buffer6, mk_tensor KTensorView (SDyn (mk_dyn_shape 6 [2; 3])) (ViewC (Some 0)))
               [3; 2] = inr (buffer6, mk_tensor KTensorView (SDyn (mk_dyn_shape 6 [3; 2])) (ViewC (Some 0))) /\
  (0 <= prod [3; 2] < modulus) /\
  tensor_size Z (mk_tensor KTensorView (SDyn (mk_dyn_shape 6 [3; 2])) (ViewC (Some 0))) = prod [3; 2].
Proof.
  assert (Hs : reshape_step Z true
                 (buffer6, mk_tensor KTensorView (SDyn (mk_dyn_shape 6 [2; 3])) (ViewC (Some 0))) [3; 2]
               = inr (buffer6, mk_tensor KTensorView (SDyn (mk_dyn_shape 6 [3; 2])) (ViewC (Some 0))))
    by (vm_compute; reflexivity).
  assert (Hb : 0 <= prod [3; 2] < modulus) by (unfold prod, modulus; cbn; lia).
  split; [exact Hs|]. split; [exact Hb|].
  exact (proj2 (proj2 (proj2 (proj2 (tensor_view_reshape_frame Z true buffer6 _ [3; 2] _ _ Hs)))) Hb).
Defined.

(** ** C8 *)

(** C8 (counterexample): a value-initialised iterator of a 2x3 TensorView
    compares equal to [begin()] of that view, and dereferencing it in a
    debug build signals OutOfRange (from the empty default shape), not
    BadAccess. *)
Lemma sentinel_iterator_equals_begin :
  it_eqb Z (it_default Z (SDyn (dyn_default 2)))
          (tensor_begin Z (mk_tensor KTensorView (SDyn (mk_dyn_shape 6 [2; 3])) (ViewC (Some 0)))) = true /\
  it_deref Z true buffer6 (it_default Z (SDyn (dyn_default 2))) = inl OutOfRange.
Proof. vm_compute. split; reflexivity. Qed.

(** C8 (amended): iterator comparison looks only at positions, so a
    value-initialised iterator (position 0) equals [begin()] of every
    tensor; dereferencing it never reads memory: in a debug build it
    signals OutOfRange over the default Dynamic shape and BadAccess over a
    Fixed shape, and in a release build the read is undefined. *)
Theorem sentinel_iterator_behaviour : forall V (mem : memory V) (sh : shape) (t : tensor V) rank ns,
  0 < fixed_len ns ->
  it_eqb V (it_default V sh) (tensor_begin V t) = true /\
  it_deref V true mem (it_default V (SDyn (dyn_default rank))) = inl OutOfRange /\
  it_deref V true mem (it_default V (SFixed ns)) = inl BadAccess /\
  it_deref V false mem (it_default V (SDyn (dyn_default rank))) = inl Undefined /\
  it_deref V false mem (it_default V (SFixed ns)) = inl Undefined.
Proof.
  intros V mem sh t rank ns Hlen.
  unfold it_eqb, it_deref, it_default, tensor_begin; cbn.
  unfold fixed_flat, debug_check; cbn.
  assert (Hl : (fixed_len ns <=? 0) = false) by (apply Z.leb_gt; exact Hlen).
  rewrite Hl. cbn. repeat split.
Qed.

Lemma sentinel_iterator_behaviour_witness :
  0 < fixed_len [2; 3] /\
  it_deref Z true buffer6 (it_default Z (SFixed [2; 3])) = inl BadAccess.
Proof.
  split; [vm_compute; reflexivity|].
  apply (sentinel_iterator_behaviour Z buffer6 (SFixed [2; 3])
           (mk_tensor KFixedTensorView (SFixed [2; 3]) (ViewC (Some 0))) 2 [2; 3]).
  vm_compute; reflexivity.
Defined.

(** ** C2 *)

(** C2 (failing input): for the (5,1,2) sub-view [T(all{}, 2, span(0,1),
    span(2,4))] of a (5,10,2,5) TensorView, whose strides are (1,50,100),
    [operator[]] maps the positions 0..9 to the offsets 0..9 while the
    coordinates of the sub-view address the offsets 0..4 and 100..104. *)
Theorem strided_flat_is_not_unravel : exists sub,
  tensor_at Z true [] (view_5_10_2_5 (Some 0)) subview_args = inr (Sub sub) /\
  tshape sub = SStrided (StridedN 10 [5; 1; 2] [1; 50; 100]) /\
  map (shape_flat true (tshape sub)) [0; 1; 2; 3; 4; 5; 6; 7; 8; 9] =
    map inr [0; 1; 2; 3; 4; 5; 6; 7; 8; 9] /\
  map (fun '(i, j, k) => shape_eval true (tshape sub) [AIdx i; AIdx j; AIdx k]) coords_5_1_2 =
    map (fun o => inr (IOffset o)) [0; 1; 2; 3; 4; 100; 101; 102; 103; 104].
Proof.
  eexists; split; [reflexivity|]. vm_compute. repeat split.
Qed.

(** The rank-1 strided shape does map a position [i < len] to [i * stride]. *)
Lemma strided1_flat_in_range : forall dbg len stride i,
  0 <= i < len -> len <= modulus ->
  strided_flat dbg (Strided1 len stride) i = inr (imul i stride).
Proof.
  intros dbg len stride i Hi Hl. unfold strided_flat.
  assert (E : to_index i = i) by (unfold to_index; apply Z.mod_small; lia).
  rewrite E. unfold debug_check.
  assert (F : (len <=? i) = false) by (apply Z.leb_gt; lia).
  rewrite F, andb_false_r. reflexivity.
Qed.

(** ** Column-major evaluation of all-integer indices *)

Lemma fold_left_mul_acc : forall l a, fold_left Z.mul l a = a * prod l.
Proof.
  unfold prod. induction l as [|x l IH]; intros a; cbn [fold_left].
  - lia.
  - rewrite (IH (a * x)), (IH (1 * x)). lia.
Qed.

Lemma prod_cons : forall e l, prod (e :: l) = e * prod l.
Proof. intros e l. unfold prod at 1. cbn [fold_left]. rewrite fold_left_mul_acc. lia. Qed.

Lemma prod_single : forall e, prod [e] = e.
Proof. intros e. unfold prod. cbn [fold_left]. lia. Qed.

Lemma to_index_small : forall z, 0 <= z < modulus -> to_index z = z.
Proof. intros z Hz. unfold to_index. apply Z.mod_small. exact Hz. Qed.

Lemma modulus_pos : 0 < modulus.
Proof. unfold modulus. lia. Qed.

Lemma in_range_length : forall es is, in_range es is -> length es = length is.
Proof. intros es is H. exact (Forall2_length H). Qed.

Lemma in_range_prod_pos : forall es is, in_range es is -> 0 < prod es.
Proof.
  intros es is H. induction H as [|e i es is Hi H IH].
  - unfold prod. cbn [fold_left]. lia.
  - rewrite prod_cons. nia.
Qed.

Lemma col_major_bound : forall es is,
  in_range es is -> es <> [] -> 0 <= col_major es is < prod es.
Proof.
  intros es is H. induction H as [|e i es is Hi H IH]; intros Hne.
  - contradiction.
  - destruct H as [|e' i' es' is' Hi' H'].
    + cbn [col_major]. rewrite prod_single. lia.
    + assert (IH' : 0 <= col_major (e' :: es') (i' :: is') < prod (e' :: es'))
        by (apply IH; discriminate).
      change (col_major (e :: e' :: es') (i :: i' :: is'))
        with (i + e * col_major (e' :: es') (i' :: is')).
      rewrite (prod_cons e (e' :: es')). nia.
Qed.

Lemma dim_arg_idx : forall dbg e i,
  0 <= i < e -> e <= modulus -> dim_arg dbg e (AIdx i) = inr (IOffset i).
Proof.
  intros dbg e i Hi He. unfold dim_arg.
  rewrite to_index_small by lia. unfold debug_check.
  replace (e <=? i) with false by (symmetry; apply Z.leb_gt; lia).
  rewrite andb_false_r. reflexivity.
Qed.

(** Both the Dynamic and the Fixed recursion compute [col_major]. *)
Lemma compute_index_col_major : forall dbg es is,
  in_range es is -> es <> [] -> prod es < modulus ->
  dyn_compute_index dbg es (map AIdx is) = inr (IOffset (col_major es is)) /\
  fixed_compute_index dbg es (map AIdx is) = inr (IOffset (col_major es is)).
Proof.
  intros dbg es is H. induction H as [|e i es is Hi H IH]; intros Hne Hp.
  - contradiction.
  - assert (Hpe : prod (e :: es) = e * prod es) by apply prod_cons.
    assert (Hpos : 0 < prod es) by (eapply in_range_prod_pos; exact H).
    assert (He : e <= modulus) by nia.
    destruct H as [|e' i' es' is' Hi' H'].
    + cbn [map dyn_compute_index fixed_compute_index].
      rewrite dim_arg_idx by assumption. split; reflexivity.
    + destruct (IH ltac:(discriminate) ltac:(nia)) as [Hd Hf].
      pose proof (col_major_bound (e' :: es') (i' :: is')
                    ltac:(constructor; assumption) ltac:(discriminate)) as Hb.
      assert (Hv : iadd i (imul e (col_major (e' :: es') (i' :: is')))
                   = i + e * col_major (e' :: es') (i' :: is')).
      { unfold iadd, imul. rewrite (to_index_small (e * _)) by nia.
        apply to_index_small. nia. }
      split.
      * change (dyn_compute_index dbg (e :: e' :: es') (map AIdx (i :: i' :: is')))
          with (h <- dim_arg dbg e (AIdx i) ;;
                r <- dyn_compute_index dbg (e' :: es') (map AIdx (i' :: is')) ;;
                ret (ires_add h (ires_scale e r))).
        rewrite dim_arg_idx by assumption. cbn [bind]. rewrite Hd. cbn [bind ires_add ires_scale ret].
        rewrite Hv. reflexivity.
      * change (fixed_compute_index dbg (e :: e' :: es') (map AIdx (i :: i' :: is')))
          with (h <- dim_arg dbg e (AIdx i) ;;
                r <- fixed_compute_index dbg (e' :: es') (map AIdx (i' :: is')) ;;
                ret (ires_add h (ires_scale e r))).
        rewrite dim_arg_idx by assumption. cbn [bind]. rewrite Hf. cbn [bind ires_add ires_scale ret].
        rewrite Hv. reflexivity.
Qed.

Lemma col_major_inj : forall es is1 is2,
  in_range es is1 -> in_range es is2 -> col_major es is1 = col_major es is2 -> is1 = is2.
Proof.
  intros es is1 is2 H1. revert is2.
  induction H1 as [|e i1 es is1 Hi1 H1 IH]; intros is2 H2 Heq.
  - inversion H2. reflexivity.
  - inversion H2 as [|e0 i2 es0 is2' Hi2 H2']; subst.
    destruct H1 as [|e' j1 es' js1 Hj1 H1'].
    + inversion H2'; subst. cbn [col_major] in Heq. subst. reflexivity.
    + inversion H2' as [|e1 j2 es1 js2 Hj2 H2'']; subst.
      pose proof (col_major_bound (e' :: es') (j1 :: js1)
                    ltac:(constructor; assumption) ltac:(discriminate)) as Hb1.
      pose proof (col_major_bound (e' :: es') (j2 :: js2)
                    ltac:(constructor; assumption) ltac:(discriminate)) as Hb2.
      change (i1 + e * col_major (e' :: es') (j1 :: js1)
              = i2 + e * col_major (e' :: es') (j2 :: js2)) in Heq.
      assert (Hc : col_major (e' :: es') (j1 :: js1) = col_major (e' :: es') (j2 :: js2)).
      { destruct (Z.lt_total (col_major (e' :: es') (j1 :: js1))
                             (col_major (e' :: es') (j2 :: js2))) as [Hl|[Hl|Hl]];
          [nia | exact Hl | nia]. }
      assert (Hi : i1 = i2) by nia.
      subst i2. f_equal. apply IH; [constructor; assumption | exact Hc].
Qed.

Lemma unravel_spec : forall es n,
  Forall (fun e => 0 < e) es -> es <> [] -> 0 <= n < prod es ->
  in_range es (unravel es n) /\ col_major es (unravel es n) = n.
Proof.
  induction es as [|e es IH]; intros n Hpos Hne Hn.
  - contradiction.
  - inversion Hpos as [|e0 es0 He Hpos']; subst.
    destruct es as [|e' es'].
    + rewrite prod_single in Hn. cbn. split; [constructor; [lia | constructor] | reflexivity].
    + rewrite prod_cons in Hn.
      assert (Hq : 0 <= n / e < prod (e' :: es')).
      { split; [apply Z.div_pos; lia | apply Z.div_lt_upper_bound; lia]. }
      destruct (IH (n / e) Hpos' ltac:(discriminate) Hq) as [Hr Hc].
      change (unravel (e :: e' :: es') n) with (n mod e :: unravel (e' :: es') (n / e)).
      split.
      * constructor; [apply Z.mod_pos_bound; lia | exact Hr].
      * destruct (unravel (e' :: es') (n / e)) as [|j js] eqn:Eu.
        { inversion Hr. }
        change (n mod e + e * col_major (e' :: es') (j :: js) = n).
        rewrite Hc. rewrite (Z.div_mod n e) at 3 by lia. lia.
Qed.

(** ** C4 *)

(** C4: for a Dynamic or Fixed shape with positive extents [es] whose
    product fits in an [index_t], the all-integer evaluation of in-range
    coordinates is injective and its image is exactly [0, prod es). *)
Theorem evaluate_bijective : forall dbg (es : list Z) (sh : shape),
  es <> [] -> Forall (fun e => 0 < e) es -> prod es < modulus ->
  (exists len, sh = SDyn (mk_dyn_shape len es)) \/ sh = SFixed es ->
  (forall is1 is2 o, in_range es is1 -> in_range es is2 ->
     shape_eval dbg sh (map AIdx is1) = inr (IOffset o) ->
     shape_eval dbg sh (map AIdx is2) = inr (IOffset o) -> is1 = is2) /\
  (forall is, in_range es is ->
     exists o, shape_eval dbg sh (map AIdx is) = inr (IOffset o) /\ 0 <= o < prod es) /\
  (forall o, 0 <= o < prod es ->
     exists is, in_range es is /\ shape_eval dbg sh (map AIdx is) = inr (IOffset o)).
Proof.
  intros dbg es sh Hne Hpos Hp Hsh.
  assert (Hev : forall is, in_range es is ->
            shape_eval dbg sh (map AIdx is) = inr (IOffset (col_major es is))).
  { intros is His.
    destruct (compute_index_col_major dbg es is His Hne Hp) as [Hd Hf].
    assert (Hl : Nat.eqb (length (map AIdx is)) (length es) = true).
    { apply Nat.eqb_eq. rewrite length_map. symmetry. apply in_range_length. exact His. }
    destruct Hsh as [[len ->] | ->]; cbn [shape_eval];
      [unfold dyn_eval; cbn [dshape] | unfold fixed_eval]; rewrite Hl; assumption. }
  split; [|split].
  - intros is1 is2 o H1 H2 E1 E2.
    rewrite Hev in E1, E2 by assumption.
    injection E1 as E1. injection E2 as E2.
    apply (col_major_inj es); [assumption | assumption | congruence].
  - intros is His. exists (col_major es is). split.
    + apply Hev. exact His.
    + apply col_major_bound; assumption.
  - intros o Ho. destruct (unravel_spec es o Hpos Hne Ho) as [Hr Hc].
    exists (unravel es o). split; [exact Hr|]. rewrite Hev by exact Hr. rewrite Hc. reflexivity.
Qed.

Lemma evaluate_bijective_witness :
  [2; 3] <> [] /\ Forall (fun e => 0 < e) [2; 3] /\ prod [2; 3] < modulus /\
  exists is, in_range [2; 3] is /\
    shape_eval true (SDyn (mk_dyn_shape 6 [2; 3])) (map AIdx is) = inr (IOffset 5).
Proof.
  assert (H1 : [2; 3] <> []) by discriminate.
  assert (H2 : Forall (fun e => 0 < e) [2; 3]) by (repeat constructor; lia).
  assert (H3 : prod [2; 3] < modulus) by (unfold prod, modulus; cbn; lia).
  split; [exact H1|]. split; [exact H2|]. split; [exact H3|].
  apply (evaluate_bijective true [2; 3] (SDyn (mk_dyn_shape 6 [2; 3])) H1 H2 H3
           (or_introl (ex_intro _ 6 eq_refl))).
  unfold prod; cbn; lia.
Defined.

(** ** Stepping one index *)

Lemma col_major_incr : forall es is d,
  in_range es is -> (d < length es)%nat ->
  col_major es (incr_at d is) = col_major es is + prod (firstn d es).
Proof.
  intros es is d H. revert d.
  induction H as [|e i es is Hi H IH]; intros d Hd.
  - cbn in Hd. lia.
  - destruct H as [|e' i' es' is' Hi' H'].
    + destruct d as [|d]; [|cbn in Hd; lia].
      cbn [incr_at col_major firstn]. unfold prod. cbn [fold_left]. lia.
    + destruct d as [|d].
      * cbn [incr_at firstn]. unfold prod at 1. cbn [fold_left].
        change (col_major (e :: e' :: es') (i + 1 :: i' :: is'))
          with (i + 1 + e * col_major (e' :: es') (i' :: is')).
        change (col_major (e :: e' :: es') (i :: i' :: is'))
          with (i + e * col_major (e' :: es') (i' :: is')).
        lia.
      * cbn in Hd.
        change (incr_at (S d) (i :: i' :: is')) with (i :: incr_at d (i' :: is')).
        destruct (incr_at d (i' :: is')) as [|j js] eqn:Ei.
        { destruct d; discriminate Ei. }
        change (firstn (S d) (e :: e' :: es')) with (e :: firstn d (e' :: es')).
        rewrite prod_cons.
        change (col_major (e :: e' :: es') (i :: j :: js))
          with (i + e * col_major (e' :: es') (j :: js)).
        change (col_major (e :: e' :: es') (i :: i' :: is'))
          with (i + e * col_major (e' :: es') (i' :: is')).
        rewrite <- Ei. rewrite (IH d) by (cbn; lia). lia.
Qed.

Lemma to_index_le : forall i, 0 <= i -> to_index i <= i.
Proof. intros i Hi. unfold to_index. apply Z.mod_le; [exact Hi | apply modulus_pos]. Qed.

Lemma strided_dim_arg_idx : forall dbg e st i,
  0 <= i < e -> strided_dim_arg dbg e st (AIdx i) = inr (IOffset (to_index (st * i))).
Proof.
  intros dbg e st i Hi. unfold strided_dim_arg, debug_check.
  pose proof (to_index_le i ltac:(lia)).
  replace (e <=? to_index i) with false by (symmetry; apply Z.leb_gt; lia).
  rewrite andb_false_r. cbn. unfold imul, to_index. rewrite Z.mul_mod_idemp_r.
  - reflexivity.
  - pose proof modulus_pos. lia.
Qed.

Lemma strided_compute_index_dot : forall dbg shape strides is,
  in_range shape is -> shape <> [] -> length strides = length shape ->
  strided_compute_index dbg shape strides (map AIdx is) = inr (IOffset (to_index (stride_dot strides is))).
Proof.
  intros dbg shape strides is H. revert strides.
  induction H as [|e i es is Hi H IH]; intros strides Hne Hl.
  - contradiction.
  - destruct strides as [|st sts]; [discriminate Hl|]. cbn in Hl.
    destruct H as [|e' i' es' is' Hi' H'].
    + destruct sts; [|discriminate Hl].
      cbn [map strided_compute_index]. rewrite strided_dim_arg_idx by exact Hi.
      cbn. rewrite Z.add_0_r. reflexivity.
    + change (strided_compute_index dbg (e :: e' :: es') (st :: sts) (map AIdx (i :: i' :: is')))
        with (h <- strided_dim_arg dbg e st (AIdx i) ;;
              r <- strided_compute_index dbg (e' :: es') sts (map AIdx (i' :: is')) ;;
              ret (ires_add h r)).
      rewrite strided_dim_arg_idx by exact Hi. cbn [bind].
      rewrite IH by (try discriminate; cbn in *; lia).
      cbn [bind ires_add ret stride_dot].
      unfold iadd, to_index. rewrite Z.add_mod_idemp_l, Z.add_mod_idemp_r
        by (pose proof modulus_pos; lia).
      reflexivity.
Qed.

Lemma strided_eval_dot : forall dbg s is,
  in_range (strided_extents s) is -> length (strided_strides s) = length (strided_extents s) ->
  strided_extents s <> [] ->
  strided_eval dbg s (map AIdx is) = inr (IOffset (to_index (stride_dot (strided_strides s) is))).
Proof.
  intros dbg [len stride | len shape strides] is H Hl Hne; cbn in *.
  - inversion H as [|e i es is' Hi H']; subst. inversion H'; subst.
    cbn. unfold debug_check.
    pose proof (to_index_le i ltac:(lia)).
    replace (len <=? to_index i) with false by (symmetry; apply Z.leb_gt; lia).
    rewrite andb_false_r. cbn. unfold imul, to_index.
    rewrite Z.mul_mod_idemp_r by (pose proof modulus_pos; lia).
    rewrite Z.add_0_r. reflexivity.
  - apply strided_compute_index_dot; assumption.
Qed.

Lemma stride_dot_incr : forall sts is d,
  length sts = length is -> (d < length is)%nat ->
  stride_dot sts (incr_at d is) = stride_dot sts is + nth d sts 0.
Proof.
  induction sts as [|st sts IH]; intros is d Hl Hd.
  - destruct is; cbn in *; lia.
  - destruct is as [|i is]; [cbn in Hd; lia|]. cbn in Hl.
    destruct d as [|d]; cbn [incr_at stride_dot nth].
    + lia.
    + rewrite IH by (cbn in Hd; lia). lia.
Qed.

(** ** C1 *)

(** C1 (counterexample): for a 2x3 Dynamic shape, stepping the last index
    from (0,0) to (0,1) moves the offset from 0 to 2, not by one. *)
Lemma evaluate_last_index_not_contiguous :
  shape_eval true (SDyn (mk_dyn_shape 6 [2; 3])) [AIdx 0; AIdx 0] = inr (IOffset 0) /\
  shape_eval true (SDyn (mk_dyn_shape 6 [2; 3])) [AIdx 0; AIdx 1] = inr (IOffset 2) /\
  shape_eval true (SFixed [2; 3]) [AIdx 0; AIdx 1] = inr (IOffset 2).
Proof. vm_compute. repeat split. Qed.

(** C1 (amended): Dynamic and Fixed shapes are column-major: stepping the
    index of dimension [d] by one (inside the extents, whose product fits
    in an [index_t]) adds [e1 * ... * e_(d-1)], so the first dimension is
    contiguous; on a Strided shape it adds [strides[d]] modulo 2^64. *)
Theorem evaluate_column_major :
  (forall dbg es sh is d,
     es <> [] -> prod es < modulus ->
     (exists len, sh = SDyn (mk_dyn_shape len es)) \/ sh = SFixed es ->
     (d < length es)%nat -> in_range es is -> in_range es (incr_at d is) ->
     exists o, shape_eval dbg sh (map AIdx is) = inr (IOffset o) /\
               shape_eval dbg sh (map AIdx (incr_at d is)) = inr (IOffset (o + prod (firstn d es)))) /\
  (forall dbg s is d,
     strided_extents s <> [] -> length (strided_strides s) = length (strided_extents s) ->
     (d < length is)%nat -> in_range (strided_extents s) is ->
     in_range (strided_extents s) (incr_at d is) ->
     exists o, shape_eval dbg (SStrided s) (map AIdx is) = inr (IOffset o) /\
               shape_eval dbg (SStrided s) (map AIdx (incr_at d is))
                 = inr (IOffset (iadd o (nth d (strided_strides s) 0)))).
Proof.
  split.
  - intros dbg es sh is d Hne Hp Hsh Hd H1 H2.
    assert (Hev : forall js, in_range es js ->
              shape_eval dbg sh (map AIdx js) = inr (IOffset (col_major es js))).
    { intros js Hjs.
      destruct (compute_index_col_major dbg es js Hjs Hne Hp) as [Hdy Hfx].
      assert (Hl : Nat.eqb (length (map AIdx js)) (length es) = true).
      { apply Nat.eqb_eq. rewrite length_map. symmetry. apply in_range_length. exact Hjs. }
      destruct Hsh as [[len ->] | ->]; cbn [shape_eval];
        [unfold dyn_eval; cbn [dshape] | unfold fixed_eval]; rewrite Hl; assumption. }
    exists (col_major es is). split; [apply Hev; exact H1|].
    rewrite Hev by exact H2. rewrite col_major_incr by assumption. reflexivity.
  - intros dbg s is d Hne Hl Hd H1 H2.
    exists (to_index (stride_dot (strided_strides s) is)). cbn [shape_eval].
    split; [apply strided_eval_dot; assumption|].
    rewrite strided_eval_dot by assumption.
    rewrite stride_dot_incr.
    + unfold iadd, to_index. rewrite Z.add_mod_idemp_l by (pose proof modulus_pos; lia).
      reflexivity.
    + rewrite Hl. apply in_range_length. exact H1.
    + exact Hd.
Qed.

Lemma evaluate_column_major_witness :
  shape_eval true (SDyn (mk_dyn_shape 6 [2; 3])) (map AIdx [0; 1]) = inr (IOffset 2) /\
  shape_eval true (SDyn (mk_dyn_shape 6 [2; 3])) (map AIdx (incr_at 1 [0; 1])) = inr (IOffset 4) /\
  shape_eval true (SStrided (StridedN 10 [5; 1; 2] [1; 50; 100])) (map AIdx (incr_at 2 [0; 0; 0]))
    = inr (IOffset 100).
Proof.
  assert (Hr : in_range [2; 3] [0; 1]) by (repeat constructor; lia).
  assert (Hr' : in_range [2; 3] (incr_at 1 [0; 1])) by (cbn; repeat constructor; lia).
  destruct (proj1 evaluate_column_major true [2; 3] (SDyn (mk_dyn_shape 6 [2; 3])) [0; 1] 1%nat
              ltac:(discriminate) ltac:(unfold prod, modulus; cbn; lia)
              (or_introl (ex_intro _ 6 eq_refl)) ltac:(cbn; lia) Hr Hr') as [o [E1 E2]].
  assert (Ho : o = 2) by (vm_compute in E1; injection E1 as E1; lia). subst o.
  split; [exact E1|]. split; [exact E2|].
  destruct (proj2 evaluate_column_major true (StridedN 10 [5; 1; 2] [1; 50; 100]) [0; 0; 0] 2%nat
              ltac:(discriminate) eq_refl ltac:(cbn; lia)
              ltac:(cbn; repeat constructor; lia) ltac:(cbn; repeat constructor; lia)) as [o [F1 F2]].
  assert (Ho : o = 0) by (vm_compute in F1; injection F1 as F1; lia). subst o.
  exact F2.
Defined.

(** ** C5 *)

(** C5: for a (5,10,2,5) TensorView over any pointer and any memory,
    [T(all{}, 2, span(0,1), span(2,4))] is a sub-view of shape (5,1,2)
    (strides (1,50,100), data offset 210) and, for every in-range
    (i,j,k), [sub(i,j,k)] is the same access as [T(i,2,j,2+k)]. *)
Theorem subview_correct : forall V dbg (mem : memory V) p, exists sub,
  tensor_at V dbg mem (view_5_10_2_5 p) subview_args = inr (Sub sub) /\
  shape_extents (tshape sub) = [5; 1; 2] /\
  (exists s, tshape sub = SStrided s) /\
  (forall i j k, 0 <= i < 5 -> 0 <= j < 1 -> 0 <= k < 2 ->
     tensor_at V dbg mem sub [AIdx i; AIdx j; AIdx k] =
     tensor_at V dbg mem (view_5_10_2_5 p) [AIdx i; AIdx 2; AIdx j; AIdx (2 + k)]).
Proof.
  intros V dbg mem p.
  exists (mk_tensor KSubView (SStrided (StridedN 10 [5; 1; 2] [1; 50; 100]))
                    (ViewC (option_map (fun q => q + 210) p))).
  split; [destruct dbg, p; reflexivity|].
  split; [reflexivity|]. split; [eexists; reflexivity|].
  intros i j k Hi Hj Hk.
  assert (Hs : shape_eval dbg (SStrided (StridedN 10 [5; 1; 2] [1; 50; 100])) (map AIdx [i; j; k])
               = inr (IOffset (i + 50 * j + 100 * k))).
  { cbn [shape_eval]. rewrite strided_eval_dot.
    - cbn [strided_strides stride_dot]. f_equal. f_equal.
      rewrite to_index_small by (unfold modulus; lia). lia.
    - cbn. repeat constructor; lia.
    - reflexivity.
    - discriminate. }
  assert (Hd : shape_eval dbg (SDyn (mk_dyn_shape 500 [5; 10; 2; 5])) (map AIdx [i; 2; j; 2 + k])
               = inr (IOffset (210 + (i + 50 * j + 100 * k)))).
  { cbn [shape_eval]. unfold dyn_eval. cbn [dshape]. rewrite length_map. cbn [length Nat.eqb].
    rewrite (proj1 (compute_index_col_major dbg [5; 10; 2; 5] [i; 2; j; 2 + k]
                      ltac:(repeat constructor; lia) ltac:(discriminate)
                      ltac:(unfold prod, modulus; cbn; lia))).
    cbn [col_major]. f_equal. f_equal. lia. }
  unfold tensor_at. cbn [tshape tcont view_5_10_2_5].
  change [AIdx i; AIdx j; AIdx k] with (map AIdx [i; j; k]).
  change [AIdx i; AIdx 2; AIdx j; AIdx (2 + k)] with (map AIdx [i; 2; j; 2 + k]).
  rewrite Hs, Hd. cbn [bind container_get].
  destruct p as [q|]; cbn [view_get option_map]; [|reflexivity].
  replace (q + 210 + (i + 50 * j + 100 * k)) with (q + (210 + (i + 50 * j + 100 * k))) by lia.
  reflexivity.
Qed.

Lemma subview_correct_witness : exists sub,
  tensor_at Z true buffer6 (view_5_10_2_5 (Some 0)) subview_args = inr (Sub sub) /\
  tensor_at Z true buffer6 sub [AIdx 4; AIdx 0; AIdx 1] =
  tensor_at Z true buffer6 (view_5_10_2_5 (Some 0)) [AIdx 4; AIdx 2; AIdx 0; AIdx (2 + 1)].
Proof.
  destruct (subview_correct Z true buffer6 (Some 0)) as [sub [E [_ [_ H]]]].
  exists sub. split; [exact E|]. apply H; lia.
Defined.

(** ** Transformers *)

Lemma make_view_0_get : forall V dbg (mem : memory V) c i,
  container_get V dbg mem (make_view V c 0) i = container_get V dbg mem c i.
Proof.
  intros V dbg mem c i. induction c as [[q|] | inner IH f]; cbn.
  - rewrite Z.add_0_r. reflexivity.
  - reflexivity.
  - rewrite IH. reflexivity.
Qed.

Lemma make_view_depth : forall V c o, transform_depth V (make_view V c o) = transform_depth V c.
Proof. intros V c o. induction c as [ptr | inner IH f]; cbn; congruence. Qed.

(** Every [transform] maps its function over the linear reads. *)
Lemma transform_lin : forall V rvalue dbg (mem : memory V) g t i,
  tensor_lin V dbg mem (transform V rvalue g t) i =
  (v <- tensor_lin V dbg mem t i ;; ret (g v)).
Proof.
  intros V rvalue dbg mem g [k sh c] i.
  destruct k, c as [ptr|inner f], rvalue;
    unfold transform, tensor_lin; cbn [tkind tshape tcont];
    destruct (shape_flat dbg sh i) as [e|o]; cbn [bind]; try reflexivity;
    cbn [container_get]; rewrite ?make_view_0_get; cbn [container_get];
    try reflexivity;
    destruct (container_get V dbg mem inner o); reflexivity.
Qed.

Lemma transform_keeps_transformer : forall V rvalue g (t : tensor V),
  tkind t = KTransformer -> (exists inner f, tcont t = TransformedC inner f) ->
  tkind (transform V rvalue g t) = KTransformer /\
  (exists inner f, tcont (transform V rvalue g t) = TransformedC inner f) /\
  transform_depth V (tcont (transform V rvalue g t)) = transform_depth V (tcont t).
Proof.
  intros V rvalue g [k sh c] Hk [inner [f Hc]]; cbn in Hk, Hc; subst.
  unfold transform; cbn [tkind tcont].
  destruct rvalue; cbn [tkind tcont transform_depth];
    (split; [reflexivity | split; [do 2 eexists; reflexivity | ]]);
    rewrite ?make_view_depth; reflexivity.
Qed.

(** ** C6 *)

(** C6: [transform(g, T)] on a Transformer [T] over [inner] with function
    [f] is a Transformer over [inner] (the same container for a temporary
    argument, a view of it otherwise) with the composed function [g . f];
    each linear read gives [g (f v)] for the read [v] of [inner] through
    [T]'s shape; and along any chain of further maps the number of
    transformed-container layers never changes while every read is the
    composition of all the maps. *)
Theorem transform_composes : forall V rvalue dbg (mem : memory V) (t : tensor V) inner (f g : V -> V),
  tkind t = KTransformer -> tcont t = TransformedC inner f ->
  tkind (transform V rvalue g t) = KTransformer /\
  tcont (transform V rvalue g t) =
    TransformedC (if rvalue then inner else make_view V inner 0)
                 (if rvalue then (fun x => g (f x)) else composed V f g) /\
  (forall i, tensor_lin V dbg mem (transform V rvalue g t) i =
             (v <- tensor_lin V dbg mem (mk_tensor (tkind t) (tshape t) inner) i ;; ret (g (f v)))) /\
  (forall fs,
     transform_depth V (tcont (transform_chain V rvalue fs t)) = transform_depth V (tcont t) /\
     (forall i, tensor_lin V dbg mem (transform_chain V rvalue fs t) i =
                (v <- tensor_lin V dbg mem t i ;; ret (fold_left (fun x h => h x) fs v)))).
Proof.
  intros V rvalue dbg mem t inner f g Hk Hc.
  split; [|split; [|split]].
  - destruct t as [k sh c]; cbn in Hk, Hc; subst. unfold transform.
    destruct rvalue; reflexivity.
  - destruct t as [k sh c]; cbn in Hk, Hc; subst. unfold transform.
    destruct rvalue; reflexivity.
  - intros i. rewrite transform_lin.
    destruct t as [k sh c]; cbn in Hk, Hc; subst.
    unfold tensor_lin; cbn [tshape tcont container_get].
    destruct (shape_flat dbg sh i) as [e|o]; cbn [bind]; [reflexivity|].
    destruct (container_get V dbg mem inner o); reflexivity.
  - intros fs.
    assert (Hinv : forall fs t0, tkind t0 = KTransformer ->
              (exists inner0 f0, tcont t0 = TransformedC inner0 f0) ->
              transform_depth V (tcont (transform_chain V rvalue fs t0)) = transform_depth V (tcont t0)).
    { induction fs0 as [|h fs0 IH]; intros t0 Hk0 Hc0; [reflexivity|].
      cbn [transform_chain].
      destruct (transform_keeps_transformer V rvalue h t0 Hk0 Hc0) as [Hk1 [Hc1 Hd1]].
      rewrite IH by assumption. exact Hd1. }
    split; [apply Hinv; [exact Hk | exists inner, f; exact Hc]|].
    clear Hinv Hk Hc. revert t.
    induction fs as [|h fs IH]; intros t i; cbn [transform_chain fold_left].
    + destruct (tensor_lin V dbg mem t i); reflexivity.
    + rewrite IH, transform_lin.
      destruct (tensor_lin V dbg mem t i); reflexivity.
Qed.

Lemma transform_composes_witness :
  tensor_lin Z true buffer6
    (transform Z false (fun x => 10 * x)
       (transform Z false (fun x => x + 1)
          (mk_tensor KTensorView (SDyn (mk_dyn_shape 6 [2; 3])) (ViewC (Some 0))))) 3 = inr 50.
Proof.
  destruct (transform_composes Z false true buffer6
              (transform Z false (fun x => x + 1)
                 (mk_tensor KTensorView (SDyn (mk_dyn_shape 6 [2; 3])) (ViewC (Some 0))))
              (ViewC (Some 0)) (fun x => x + 1) (fun x => 10 * x) eq_refl eq_refl)
    as [_ [_ [H _]]].
  rewrite H. vm_compute. reflexivity.
Defined.

(** * Further properties of the shapes, views and iterators *)

(** ** Unfolding equations of the index recursions *)

Lemma dyn_compute_index_cons2 : forall dbg e e2 es a args,
  dyn_compute_index dbg (e :: e2 :: es) (a :: args) =
  (h <- dim_arg dbg e a ;;
   r <- dyn_compute_index dbg (e2 :: es) args ;;
   ret (ires_add h (ires_scale e r))).
Proof. reflexivity. Qed.

Lemma fixed_compute_index_cons2 : forall dbg e es a a2 args,
  fixed_compute_index dbg (e :: es) (a :: a2 :: args) =
  (h <- dim_arg dbg e a ;;
   r <- fixed_compute_index dbg es (a2 :: args) ;;
   ret (ires_add h (ires_scale e r))).
Proof. reflexivity. Qed.

Lemma bind_ret_r : forall A (m : result A), (x <- m ;; ret x) = m.
Proof. intros A [e|a]; reflexivity. Qed.

(** With as many arguments as extents, the two recursions agree. *)
Lemma fixed_dyn_compute_index : forall dbg es args,
  length args = length es ->
  fixed_compute_index dbg es args = dyn_compute_index dbg es args.
Proof.
  intros dbg es. induction es as [|e es IH]; intros args Hl.
  - destruct args; [reflexivity | discriminate Hl].
  - destruct args as [|a args]; [discriminate Hl|]. cbn in Hl. injection Hl as Hl.
    destruct es as [|e2 es2].
    + destruct args; [reflexivity | discriminate Hl].
    + destruct args as [|a2 args2]; [discriminate Hl|].
      rewrite fixed_compute_index_cons2, dyn_compute_index_cons2, IH by exact Hl.
      reflexivity.
Qed.

(** ** The debug checks of [compute_index] *)

Lemma dim_arg_cases : forall dbg e a,
  (dbg = true /\ arg_out e a /\ dim_arg dbg e a = inl OutOfRange) \/
  (~ (dbg = true /\ arg_out e a) /\ exists r, dim_arg dbg e a = inr r).
Proof.
  intros dbg e [i|x|]; unfold dim_arg, arg_out, debug_check.
  - destruct dbg; cbn [andb].
    + destruct (e <=? to_index i) eqn:E.
      * left. apply Z.leb_le in E. split; [reflexivity | split; [exact E | reflexivity]].
      * right. apply Z.leb_gt in E. split; [intros [_ H]; lia | eexists; reflexivity].
    + right. split; [intros [H _]; discriminate H | eexists; reflexivity].
  - destruct dbg; cbn [andb].
    + destruct (e <? send x) eqn:E.
      * left. apply Z.ltb_lt in E. split; [reflexivity | split; [exact E | reflexivity]].
      * right. apply Z.ltb_ge in E. split; [intros [_ H]; lia | eexists; reflexivity].
    + right. split; [intros [H _]; discriminate H | eexists; reflexivity].
  - right. split; [intros [_ []] | eexists; reflexivity].
Qed.

Lemma compute_cases : forall dbg es args r,
  length args = length es -> es <> [] ->
  r = dyn_compute_index dbg es args \/ r = fixed_compute_index dbg es args ->
  (dbg = true /\ Exists (fun p => arg_out (fst p) (snd p)) (combine es args) /\
   r = inl OutOfRange) \/
  (~ (dbg = true /\ Exists (fun p => arg_out (fst p) (snd p)) (combine es args)) /\
   exists v, r = inr v).
Proof.
  intros dbg es. induction es as [|e es IH]; intros args r Hl Hne Hr; [contradiction|].
  destruct args as [|a args]; [discriminate Hl|]. cbn in Hl. injection Hl as Hl.
  cbn [combine].
  destruct es as [|e2 es2].
  - destruct args; [|discriminate Hl].
    assert (Hr' : r = dim_arg dbg e a).
    { destruct Hr as [-> | ->]; cbn [dyn_compute_index fixed_compute_index];
        apply bind_ret_r. }
    subst r. destruct (dim_arg_cases dbg e a) as [[Hd [Ho E]] | [Hn [v E]]].
    + left. split; [exact Hd|]. split; [constructor; exact Ho | exact E].
    + right. split; [|exists v; exact E]. intros [Hd Hex]. apply Hn. split; [exact Hd|].
      inversion Hex as [p l Hp | p l Hp]; [exact Hp | inversion Hp].
  - destruct args as [|a2 args2]; [discriminate Hl|].
    destruct (dim_arg_cases dbg e a) as [[Hd [Ho E]] | [Hn [h E]]].
    + left. split; [exact Hd|]. split; [apply Exists_cons_hd; exact Ho|].
      destruct Hr as [-> | ->];
        rewrite ?dyn_compute_index_cons2, ?fixed_compute_index_cons2, E; reflexivity.
    + destruct Hr as [Hr|Hr];
        rewrite ?dyn_compute_index_cons2, ?fixed_compute_index_cons2, E in Hr;
        cbn [bind] in Hr;
        [destruct (IH (a2 :: args2) (dyn_compute_index dbg (e2 :: es2) (a2 :: args2))
                     Hl ltac:(discriminate) (or_introl eq_refl)) as [[Hd [Hex E2]] | [Hn2 [v E2]]]
        |destruct (IH (a2 :: args2) (fixed_compute_index dbg (e2 :: es2) (a2 :: args2))
                     Hl ltac:(discriminate) (or_intror eq_refl)) as [[Hd [Hex E2]] | [Hn2 [v E2]]]];
        rewrite E2 in Hr; cbn [bind] in Hr; subst r.
      * left. split; [exact Hd|]. split; [apply Exists_cons_tl; exact Hex | reflexivity].
      * right. split; [|eexists; reflexivity]. intros [Hd Hex].
        inversion Hex as [p l Hp | p l Hp]; subst; [apply Hn | apply Hn2]; split; first [exact Hd | reflexivity | exact Hp].
      * left. split; [exact Hd|]. split; [apply Exists_cons_tl; exact Hex | reflexivity].
      * right. split; [|eexists; reflexivity]. intros [Hd Hex].
        inversion Hex as [p l Hp | p l Hp]; subst; [apply Hn | apply Hn2]; split; first [exact Hd | reflexivity | exact Hp].
Qed.

(** ** X1: the debug checks of an index expression *)

(** In a debug build, evaluating an index expression of the right arity on a
    Dynamic shape signals out-of-range exactly when some argument fails the
    bound of its dimension (an integer at or past the extent, or a span
    ending past it), and signals nothing else; in a release build the same
    evaluation never signals. *)
Theorem debug_evaluate_out_of_range : forall len es args,
  es <> [] -> length args = length es ->
  (dyn_eval true (mk_dyn_shape len es) args = inl OutOfRange <->
     Exists (fun p => arg_out (fst p) (snd p)) (combine es args)) /\
  (forall err, dyn_eval true (mk_dyn_shape len es) args = inl err -> err = OutOfRange) /\
  (exists v, dyn_eval false (mk_dyn_shape len es) args = inr v).
Proof.
  intros len es args Hne Hl. unfold dyn_eval. cbn [dshape].
  rewrite (proj2 (Nat.eqb_eq _ _) Hl).
  split; [|split].
  - destruct (compute_cases true es args _ Hl Hne (or_introl eq_refl))
      as [[_ [Hex E]] | [Hn [v E]]]; rewrite E.
    + split; intros _; [exact Hex | reflexivity].
    + split; [discriminate | intros Hex; exfalso; apply Hn; split; [reflexivity | exact Hex]].
  - intros err Herr.
    destruct (compute_cases true es args _ Hl Hne (or_introl eq_refl))
      as [[_ [_ E]] | [_ [v E]]]; rewrite E in Herr; congruence.
  - destruct (compute_cases false es args _ Hl Hne (or_introl eq_refl))
      as [[Hd _] | [_ [v E]]]; [discriminate Hd | exists v; exact E].
Qed.

Lemma debug_evaluate_out_of_range_witness :
  dyn_eval true (mk_dyn_shape 6 [2; 3]) [AIdx 0; AIdx 5] = inl OutOfRange.
Proof.
  apply (proj2 (proj1 (debug_evaluate_out_of_range 6 [2; 3] [AIdx 0; AIdx 5]
                         ltac:(discriminate) eq_refl))).
  apply Exists_cons_tl. apply Exists_cons_hd. vm_compute. congruence.
Defined.

(** ** X2: Fixed and Dynamic shapes evaluate alike *)

(** A [FixedTensorShape<ns...>] and a [DynamicTensorShape] with the same
    extents give the same result (offset, slice, or error) for every index
    expression, whatever their stored sizes. *)
Theorem fixed_eval_is_dyn_eval : forall dbg len es args,
  fixed_eval dbg es args = dyn_eval dbg (mk_dyn_shape len es) args.
Proof.
  intros dbg len es args. unfold fixed_eval, dyn_eval. cbn [dshape].
  destruct (Nat.eqb (length args) (length es)) eqn:E; [|reflexivity].
  apply fixed_dyn_compute_index. apply Nat.eqb_eq. exact E.
Qed.

(** ** X3: linear and multi-index reads agree *)

(** On a tensor with a Dynamic shape built from [es] (size [prod es]) or a
    Fixed shape [es], whose element count fits an [index_t], reading
    [T(i1, ..., iN)] at in-range coordinates is reading [T[k]] at the
    column-major position [k] of those coordinates. *)
Theorem linear_and_multi_index_agree : forall V dbg (mem : memory V) k c es sh is,
  sh = SDyn (mk_dyn_shape (to_index (prod es)) es) \/ sh = SFixed es ->
  es <> [] -> prod es < modulus -> in_range es is ->
  tensor_at V dbg mem (mk_tensor k sh c) (map AIdx is) =
  (v <- tensor_lin V dbg mem (mk_tensor k sh c) (col_major es is) ;; ret (Elem v)).
Proof.
  intros V dbg mem k c es sh is Hsh Hne Hp His.
  destruct (compute_index_col_major dbg es is His Hne Hp) as [Hd Hf].
  pose proof (col_major_bound es is His Hne) as Hb.
  assert (Hl : Nat.eqb (length (map AIdx is)) (length es) = true).
  { apply Nat.eqb_eq. rewrite length_map. symmetry. apply in_range_length. exact His. }
  assert (Hlen : to_index (prod es) = prod es) by (apply to_index_small; lia).
  assert (Hc : to_index (col_major es is) = col_major es is) by (apply to_index_small; lia).
  assert (Hchk : (prod es <=? col_major es is) = false) by (apply Z.leb_gt; lia).
  assert (Hev : shape_eval dbg sh (map AIdx is) = inr (IOffset (col_major es is))).
  { destruct Hsh as [-> | ->]; cbn [shape_eval];
      [unfold dyn_eval; cbn [dshape] | unfold fixed_eval]; rewrite Hl; assumption. }
  assert (Hfl : shape_flat dbg sh (col_major es is) = inr (col_major es is)).
  { destruct Hsh as [-> | ->]; cbn [shape_flat];
      [unfold dyn_flat; cbn [dlen] | unfold fixed_flat, fixed_len];
      unfold debug_check; rewrite Hc, Hlen, Hchk, andb_false_r; reflexivity. }
  unfold tensor_at, tensor_lin. cbn [tshape tcont]. rewrite Hev, Hfl. reflexivity.
Qed.

Lemma linear_and_multi_index_agree_witness :
  tensor_at Z true buffer6
    (mk_tensor KTensorView (SDyn (mk_dyn_shape (to_index (prod [2; 3])) [2; 3])) (ViewC (Some 0)))
    (map AIdx [1; 2]) =
  (v <- tensor_lin Z true buffer6
          (mk_tensor KTensorView (SDyn (mk_dyn_shape (to_index (prod [2; 3])) [2; 3])) (ViewC (Some 0)))
          (col_major [2; 3] [1; 2]) ;; ret (Elem v)).
Proof.
  apply (linear_and_multi_index_agree Z true buffer6 KTensorView (ViewC (Some 0)) [2; 3]
           (SDyn (mk_dyn_shape (to_index (prod [2; 3])) [2; 3])) [1; 2]).
  - left. reflexivity.
  - discriminate.
  - unfold prod, modulus. cbn. lia.
  - repeat constructor; lia.
Defined.

(** ** X4: iterators read what linear indexing reads *)

(** For every tensor, dereferencing [begin() + k] reads the same as [T[k]],
    [end() - begin()] is [size()], and [begin() + size()] compares equal to
    [end()]. *)
Theorem iterator_reads_linear : forall V dbg (mem : memory V) t k,
  it_deref V dbg mem (it_plus V (tensor_begin V t) k) = tensor_lin V dbg mem t k /\
  it_minus (tensor_end V t) (tensor_begin V t) = tensor_size V t /\
  it_eqb V (it_plus V (tensor_begin V t) (tensor_size V t)) (tensor_end V t) = true.
Proof.
  intros V dbg mem [kd sh c] k.
  unfold it_deref, it_plus, tensor_begin, tensor_end, it_minus, it_eqb, tensor_lin.
  cbn [it_shape it_cont it_pos tshape tcont].
  split; [|split].
  - rewrite Z.add_0_l. destruct (shape_flat dbg sh k) as [e|o]; cbn [bind]; [reflexivity|].
    apply make_view_0_get.
  - lia.
  - apply Z.eqb_eq. lia.
Qed.

(** ** X5: views at an offset *)

(** [make_view(c, a)] reads element [i] where [c] reads element [a + i],
    through any number of transformed-container layers, and a view of a
    view adds the offsets. *)
Theorem make_view_offsets : forall V dbg (mem : memory V) c a b i,
  container_get V dbg mem (make_view V c a) i = container_get V dbg mem c (a + i) /\
  make_view V (make_view V c a) b = make_view V c (a + b).
Proof.
  intros V dbg mem c a b i. induction c as [[q|] | inner [IH1 IH2] f]; cbn.
  - rewrite !Z.add_assoc. split; reflexivity.
  - split; reflexivity.
  - rewrite IH1, IH2. split; reflexivity.
Qed.

(** ** X6: the default TensorView *)

(** A default-constructed [TensorView] (size 0, extents 0, [nullptr]) has
    every linear read and every all-integer read of the right arity
    rejected as out of range in a debug build, before the null pointer is
    reached; in a release build a linear read dereferences [nullptr]. *)
Theorem default_view_rejects_access : forall V (mem : memory V) rank k is,
  (0 < rank)%nat -> length is = rank ->
  tensor_lin V true mem (tensor_view_default rank) k = inl OutOfRange /\
  tensor_at V true mem (tensor_view_default rank) (map AIdx is) = inl OutOfRange /\
  tensor_lin V false mem (tensor_view_default rank) k = inl Undefined.
Proof.
  intros V mem rank k is Hr Hl.
  assert (Hpos : forall z, (0 <=? to_index z) = true).
  { intros z. apply Z.leb_le. unfold to_index. apply Z.mod_pos_bound. apply modulus_pos. }
  split; [|split].
  - unfold tensor_lin, tensor_view_default, dyn_default. cbn [tshape tcont shape_flat].
    unfold dyn_flat, debug_check. cbn [dlen]. rewrite Hpos. reflexivity.
  - unfold tensor_at, tensor_view_default, dyn_default. cbn [tshape shape_eval].
    unfold dyn_eval. cbn [dshape]. rewrite length_map, repeat_length, Hl, Nat.eqb_refl.
    destruct is as [|i is]; [cbn in Hl; lia|].
    assert (Hd : dim_arg true 0 (AIdx i) = inl OutOfRange).
    { unfold dim_arg, debug_check. rewrite Hpos. reflexivity. }
    subst rank. destruct is as [|i2 is]; cbn [length map].
    + change (repeat 0 1) with [0]. cbn [dyn_compute_index].
      rewrite Hd. reflexivity.
    + change (repeat 0 (S (S (length is)))) with (0 :: 0 :: repeat 0 (length is)).
      rewrite dyn_compute_index_cons2, Hd. reflexivity.
  - reflexivity.
Qed.

Lemma default_view_rejects_access_witness :
  tensor_at Z true buffer6 (tensor_view_default 2) (map AIdx [0; 0]) = inl OutOfRange.
Proof.
  apply (default_view_rejects_access Z buffer6 2 0 [0; 0]); [lia | reflexivity].
Defined.

(** ** Shapes built by the constructor and by [reshape] *)

Lemma prod_app_repeat1 : forall l n, prod (l ++ repeat 1 n) = prod l.
Proof.
  intros l n. unfold prod. rewrite fold_left_app. generalize (fold_left Z.mul l 1) as a.
  induction n as [|n IH]; intros a; cbn; [reflexivity|]. rewrite Z.mul_1_r. apply IH.
Qed.

Lemma to_index_prod_map : forall l, to_index (prod (map to_index l)) = to_index (prod l).
Proof.
  induction l as [|a l IH]; [reflexivity|]. cbn [map]. rewrite !prod_cons.
  unfold to_index in *. pose proof modulus_pos as Hm.
  rewrite Z.mul_mod, Z.mod_mod, IH, <- Z.mul_mod by lia. reflexivity.
Qed.

Lemma padded_shape : forall (l : list Z) rank, (length l <= rank)%nat ->
  length (map to_index l ++ repeat 1 (rank - length l)) = rank /\
  firstn (length l) (map to_index l ++ repeat 1 (rank - length l)) = map to_index l /\
  Forall (fun e => e = 1) (skipn (length l) (map to_index l ++ repeat 1 (rank - length l))) /\
  to_index (prod l) = to_index (prod (map to_index l ++ repeat 1 (rank - length l))).
Proof.
  intros l rank Hl. split; [|split; [|split]].
  - rewrite length_app, length_map, repeat_length. lia.
  - rewrite firstn_app, length_map, Nat.sub_diag, firstn_O, app_nil_r.
    apply firstn_all2. rewrite length_map. lia.
  - rewrite skipn_app, length_map, Nat.sub_diag, skipn_O.
    rewrite (skipn_all2 (map to_index l)) by (rewrite length_map; lia). cbn [app].
    apply Forall_forall. intros x Hx. apply repeat_spec in Hx. exact Hx.
  - rewrite prod_app_repeat1, to_index_prod_map. reflexivity.
Qed.

Lemma existsb_neg_false : forall l,
  existsb (fun x => x <? 0) l = false -> Forall (fun x => 0 <= x) l.
Proof.
  intros l H. apply Forall_forall. intros x Hx.
  destruct (x <? 0) eqn:E; [|apply Z.ltb_ge; exact E].
  assert (Ht : existsb (fun x => x <? 0) l = true) by (apply existsb_exists; exists x; auto).
  congruence.
Qed.

(** ** X7: the DynamicTensorShape constructor *)

(** A successful [DynamicTensorShape<rank>(shape_...)] got between 1 and
    [rank] extents; it stores [rank] extents, the given ones (as [index_t])
    followed by 1s; its size is the product of the stored extents modulo
    2^64; and in a debug build the given extents were all nonnegative. *)
Theorem dyn_make_shape : forall dbg rank shape_ s,
  dyn_make dbg rank shape_ = inr s ->
  (0 < length shape_ <= rank)%nat /\
  length (dshape s) = rank /\
  firstn (length shape_) (dshape s) = map to_index shape_ /\
  Forall (fun e => e = 1) (skipn (length shape_) (dshape s)) /\
  dlen s = to_index (prod (dshape s)) /\
  (dbg = true -> Forall (fun x => 0 <= x) shape_).
Proof.
  intros dbg rank shape_ s H. unfold dyn_make in H.
  destruct (Nat.eqb rank 0 || Nat.eqb (length shape_) 0 || Nat.ltb rank (length shape_)) eqn:E;
    [discriminate H|].
  apply orb_false_iff in E as [E E3]. apply orb_false_iff in E as [E1 E2].
  apply Nat.eqb_neq in E1, E2. apply Nat.ltb_ge in E3.
  destruct (debug_check dbg (existsb (fun s => s <? 0) shape_) BadShape) as [e|u] eqn:D;
    cbn [bind] in H; [discriminate H|].
  injection H as <-. cbn [dshape dlen].
  destruct (padded_shape shape_ rank E3) as [P1 [P2 [P3 P4]]].
  split; [lia|]. split; [exact P1|]. split; [exact P2|]. split; [exact P3|].
  split; [exact P4|].
  intros ->. unfold debug_check in D. cbn [andb] in D.
  destruct (existsb (fun s => s <? 0) shape_) eqn:Ex; [discriminate D|].
  apply existsb_neg_false. exact Ex.
Qed.

Lemma dyn_make_shape_witness :
  dlen (mk_dyn_shape 6 [2; 3; 1]) = to_index (prod (dshape (mk_dyn_shape 6 [2; 3; 1]))).
Proof.
  exact (proj1 (proj2 (proj2 (proj2 (proj2
           (dyn_make_shape true 3 [2; 3] (mk_dyn_shape 6 [2; 3; 1])
              ltac:(vm_compute; reflexivity))))))).
Defined.

(** ** X8: TensorView::reshape *)

(** A successful [reshape(ns...)] of a TensorView keeps the kind, the data
    pointer and the rank; the new extents are [ns] (as [index_t]) followed
    by 1s, the new size is their product modulo 2^64, and repeating the same
    reshape changes nothing. *)
Theorem tensor_view_reshape_invariants : forall V dbg (t t' : tensor V) ns,
  tensor_view_reshape V dbg t ns = inr t' ->
  tkind t' = KTensorView /\ tcont t' = tcont t /\
  length (shape_extents (tshape t')) = length (shape_extents (tshape t)) /\
  firstn (length ns) (shape_extents (tshape t')) = map to_index ns /\
  Forall (fun e => e = 1) (skipn (length ns) (shape_extents (tshape t'))) /\
  tensor_size V t' = to_index (prod (shape_extents (tshape t'))) /\
  tensor_view_reshape V dbg t' ns = inr t'.
Proof.
  intros V dbg [k sh c] t' ns H. unfold tensor_view_reshape in H. cbn [tkind tshape tcont] in H.
  destruct k; try discriminate H. destruct sh as [s| |]; try discriminate H.
  unfold dyn_reshape in H.
  destruct (Nat.ltb (length (dshape s)) (length ns)) eqn:E; [discriminate H|].
  apply Nat.ltb_ge in E as E'.
  destruct (debug_check dbg (existsb (fun x => x <? 0) ns) BadShape) as [e|u] eqn:D;
    cbn [bind] in H; [discriminate H|].
  injection H as <-.
  destruct (padded_shape ns (length (dshape s)) E') as [P1 [P2 [P3 P4]]].
  cbn [tkind tcont tshape shape_extents tensor_size shape_size dshape dlen].
  split; [reflexivity|]. split; [reflexivity|]. split; [exact P1|].
  split; [exact P2|]. split; [exact P3|]. split; [exact P4|].
  unfold tensor_view_reshape, dyn_reshape. cbn [tkind tshape tcont dshape].
  rewrite P1, E, D. reflexivity.
Qed.

Lemma tensor_view_reshape_invariants_witness :
  tensor_view_reshape Z true
    (mk_tensor KTensorView (SDyn (mk_dyn_shape 3 [3; 1])) (ViewC (Some 0))) [3] =
  inr (mk_tensor KTensorView (SDyn (mk_dyn_shape 3 [3; 1])) (ViewC (Some 0))).
Proof.
  exact (proj2 (proj2 (proj2 (proj2 (proj2 (proj2
           (tensor_view_reshape_invariants Z true
              (mk_tensor KTensorView (SDyn (mk_dyn_shape 6 [2; 3])) (ViewC (Some 0)))
              (mk_tensor KTensorView (SDyn (mk_dyn_shape 3 [3; 1])) (ViewC (Some 0))) [3]
              ltac:(vm_compute; reflexivity)))))))).
Defined.

(** ** X9: when reshape fails *)

(** [reshape] on a TensorView is refused at compile time with more extents
    than the rank; in a debug build a negative extent raises bad_shape;
    otherwise it succeeds, whatever the product of the new extents is
    (the element count is never compared with the old one). *)
Theorem tensor_view_reshape_errors : forall V dbg (t : tensor V) s ns,
  tkind t = KTensorView -> tshape t = SDyn s ->
  ((length (dshape s) < length ns)%nat -> tensor_view_reshape V dbg t ns = inl Rejected) /\
  ((length ns <= length (dshape s))%nat -> Exists (fun x => x < 0) ns ->
     tensor_view_reshape V true t ns = inl BadShape) /\
  ((length ns <= length (dshape s))%nat -> (dbg = false \/ Forall (fun x => 0 <= x) ns) ->
     exists t', tensor_view_reshape V dbg t ns = inr t').
Proof.
  intros V dbg [k sh c] s ns Hk Hs. cbn [tkind tshape] in Hk, Hs. subst k sh.
  unfold tensor_view_reshape, dyn_reshape. cbn [tkind tshape tcont].
  split; [|split].
  - intros Hl. apply Nat.ltb_lt in Hl. rewrite Hl. reflexivity.
  - intros Hl Hex. apply Nat.ltb_ge in Hl. rewrite Hl.
    assert (Hb : existsb (fun x => x <? 0) ns = true).
    { apply existsb_exists. apply Exists_exists in Hex as [x [Hx Hn]].
      exists x. split; [exact Hx | apply Z.ltb_lt; exact Hn]. }
    unfold debug_check. rewrite Hb. reflexivity.
  - intros Hl Hok. apply Nat.ltb_ge in Hl. rewrite Hl.
    assert (Hd : debug_check dbg (existsb (fun x => x <? 0) ns) BadShape = inr tt).
    { unfold debug_check. destruct Hok as [-> | Hf]; [reflexivity|].
      replace (existsb (fun x => x <? 0) ns) with false; [rewrite andb_false_r; reflexivity|].
      symmetry. apply not_true_iff_false. intros Hb. apply existsb_exists in Hb as [x [Hx Hn]].
      rewrite Forall_forall in Hf. specialize (Hf x Hx). apply Z.ltb_lt in Hn. lia. }
    rewrite Hd. eexists. reflexivity.
Qed.

Lemma tensor_view_reshape_errors_witness :
  tensor_view_reshape Z true
    (mk_tensor KTensorView (SDyn (mk_dyn_shape 6 [2; 3])) (ViewC (Some 0))) [3; -1] = inl BadShape.
Proof.
  apply (proj1 (proj2 (tensor_view_reshape_errors Z true
           (mk_tensor KTensorView (SDyn (mk_dyn_shape 6 [2; 3])) (ViewC (Some 0)))
           (mk_dyn_shape 6 [2; 3]) [3; -1] eq_refl eq_refl))).
  - cbn. lia.
  - apply Exists_cons_tl. apply Exists_cons_hd. lia.
Defined.

(** ** X10: shape(d) *)

(** For [d] below the rank, [shape(d)] of a Fixed or a Dynamic shape is the
    [d]-th extent.  Past the rank, the Fixed shape raises out-of-range in a
    debug build, but the Dynamic shape has no check in either build and reads
    past its array. *)
Theorem shape_at_bounds : forall dbg ns s d,
  0 <= d < modulus ->
  (d < Z.of_nat (length ns) -> fixed_shape_at dbg ns d = inr (nth (Z.to_nat d) ns 0)) /\
  (Z.of_nat (length ns) <= d ->
     fixed_shape_at true ns d = inl OutOfRange /\ fixed_shape_at false ns d = inl Undefined) /\
  (d < Z.of_nat (length (dshape s)) -> dyn_shape_at s d = inr (nth (Z.to_nat d) (dshape s) 0)) /\
  (Z.of_nat (length (dshape s)) <= d -> dyn_shape_at s d = inl Undefined).
Proof.
  intros dbg ns s d Hd. unfold fixed_shape_at, dyn_shape_at, debug_check.
  rewrite to_index_small by exact Hd.
  split; [|split; [|split]].
  - intros Hl. replace (Z.of_nat (length ns) <=? d) with false by (symmetry; apply Z.leb_gt; lia).
    rewrite andb_false_r. cbn [bind].
    rewrite (nth_error_nth' ns 0) by lia. reflexivity.
  - intros Hl. replace (Z.of_nat (length ns) <=? d) with true by (symmetry; apply Z.leb_le; lia).
    split; [reflexivity|]. cbn [andb bind].
    rewrite (proj2 (nth_error_None ns (Z.to_nat d))) by lia. reflexivity.
  - intros Hl. rewrite (nth_error_nth' (dshape s) 0) by lia. reflexivity.
  - intros Hl. rewrite (proj2 (nth_error_None (dshape s) (Z.to_nat d))) by lia. reflexivity.
Qed.

Lemma shape_at_bounds_witness :
  fixed_shape_at true [2; 3] 2 = inl OutOfRange /\
  dyn_shape_at (mk_dyn_shape 6 [2; 3]) 2 = inl Undefined.
Proof.
  destruct (shape_at_bounds true [2; 3] (mk_dyn_shape 6 [2; 3]) 2
              ltac:(unfold modulus; lia)) as [_ [H1 [_ H2]]].
  split; [apply H1; cbn; lia | apply H2; cbn; lia].
Defined.

(** ** X11: shifting and scaling a span *)

(** Shifting a span by [i] and scaling it by [s > 0] keep its size, as long
    as the new ends stay below 2^64. *)
Theorem span_size_shift_scale : forall x i s,
  0 <= sbegin x <= send x -> 0 < sstride x < modulus ->
  (0 <= i -> send x + i < modulus -> span_size (span_add x i) = span_size x) /\
  (0 < s -> s * send x < modulus -> s * sstride x < modulus ->
     span_size (span_scale s x) = span_size x).
Proof.
  intros [b e st] i s Hb Hst. cbn [sbegin send sstride] in *.
  unfold span_size, span_add, span_scale, iadd, isub, imul, idiv. cbn [sbegin send sstride].
  split.
  - intros Hi He.
    rewrite (to_index_small (b + i)), (to_index_small (e + i)) by lia.
    replace (e + i - (b + i)) with (e - b) by lia. reflexivity.
  - intros Hs He Hst'.
    rewrite (to_index_small (s * b)), (to_index_small (s * e)), (to_index_small (s * st)) by nia.
    rewrite <- Z.mul_sub_distr_l.
    rewrite (to_index_small (s * (e - b))), (to_index_small (e - b)) by nia.
    apply Z.div_mul_cancel_l; lia.
Qed.

Lemma span_size_shift_scale_witness :
  span_size (span_add (mkspan 2 10 3) 5) = span_size (mkspan 2 10 3) /\
  span_size (span_scale 4 (mkspan 2 10 3)) = span_size (mkspan 2 10 3).
Proof.
  destruct (span_size_shift_scale (mkspan 2 10 3) 5 4
              ltac:(cbn; lia) ltac:(cbn; unfold modulus; lia)) as [H1 H2].
  split; [apply H1 | apply H2]; cbn; unfold modulus; lia.
Defined.

(** ** X12: rank-1 strided views *)

(** On a rank-1 strided shape (the shape of a one-dimensional sub-view),
    [T(i)] and [T[i]] are the same access for every [i]: the same bound
    check and the same offset [i * stride]. *)
Theorem strided1_linear_is_call : forall V dbg (mem : memory V) k len stride c i,
  tensor_at V dbg mem (mk_tensor k (SStrided (Strided1 len stride)) c) [AIdx i] =
  (v <- tensor_lin V dbg mem (mk_tensor k (SStrided (Strided1 len stride)) c) i ;; ret (Elem v)).
Proof.
  intros V dbg mem k len stride c i.
  unfold tensor_at, tensor_lin. cbn [tshape tcont shape_eval shape_flat strided_eval strided1_eval].
  unfold strided_flat, imul.
  destruct (debug_check dbg (len <=? to_index i) OutOfRange); cbn [bind]; [reflexivity|].
  rewrite Z.mul_comm. destruct (container_get V dbg mem c (to_index (to_index i * stride)));
    reflexivity.
Qed.

(** ** Sub-views of span arguments *)

Lemma span_scale_scale : forall P e y, span_scale P (span_scale e y) = span_scale (P * e) y.
Proof.
  intros P e [b en st]. unfold span_scale, imul, to_index. cbn [sbegin send sstride].
  pose proof modulus_pos.
  rewrite !Z.mul_mod_idemp_r, !Z.mul_assoc by lia. reflexivity.
Qed.

Lemma span_scale_1 : forall y,
  0 <= sbegin y < modulus /\ 0 <= send y < modulus /\ 0 <= sstride y < modulus ->
  span_scale 1 y = y.
Proof.
  intros [b en st] H. cbn [sbegin send sstride] in H. unfold span_scale, imul.
  cbn [sbegin send sstride]. rewrite !Z.mul_1_l, !to_index_small by lia. reflexivity.
Qed.

Lemma span_size_scale_small : forall P x,
  1 <= P -> 0 <= sbegin x <= send x -> 1 <= sstride x ->
  P * send x < modulus -> P * sstride x < modulus ->
  span_size (span_scale P x) = span_size x.
Proof.
  intros P [b e st] HP Hb Hst He Hs. cbn [sbegin send sstride] in *.
  unfold span_size, span_scale, isub, imul, idiv. cbn [sbegin send sstride].
  rewrite (to_index_small (P * b)), (to_index_small (P * e)), (to_index_small (P * st)) by nia.
  rewrite <- Z.mul_sub_distr_l.
  rewrite (to_index_small (P * (e - b))), (to_index_small (e - b)) by nia.
  apply Z.div_mul_cancel_l; lia.
Qed.

Lemma span_size_fits : forall e x, span_fits e x -> e < modulus ->
  span_size x = (send x - sbegin x) / sstride x.
Proof.
  intros e x [Hb [He Hs]] Hm. unfold span_size, isub, idiv.
  rewrite to_index_small by lia. reflexivity.
Qed.

Lemma prod_fits_pos : forall es xs, Forall2 span_fits es xs -> 1 <= prod es.
Proof.
  intros es xs H. induction H as [|e x es xs Hx H IH].
  - unfold prod. cbn. lia.
  - rewrite prod_cons. destruct Hx as [_ [_ Hs]]. nia.
Qed.

Lemma fits_extent_small : forall es xs, Forall2 span_fits es xs -> prod es < modulus ->
  Forall (fun e => 1 <= e < modulus) es.
Proof.
  intros es xs H. induction H as [|e x es xs Hx H IH]; intros Hp; constructor.
  - rewrite prod_cons in Hp. pose proof (prod_fits_pos es xs H). destruct Hx as [_ [_ Hs]]. nia.
  - apply IH. rewrite prod_cons in Hp. pose proof (prod_fits_pos es xs H).
    destruct Hx as [_ [_ Hs]]. nia.
Qed.

Lemma col_major_cons2 : forall e e2 es c c2 cs,
  col_major (e :: e2 :: es) (c :: c2 :: cs) = c + e * col_major (e2 :: es) (c2 :: cs).
Proof. reflexivity. Qed.

Lemma slice_coords_in_range : forall es xs is,
  Forall2 span_fits es xs -> Forall (fun e => 1 <= e < modulus) es ->
  in_range (map span_size xs) is -> in_range es (slice_coords xs is).
Proof.
  intros es xs is H. revert is. induction H as [|e x es xs Hx H IH]; intros is Hm His.
  - unfold in_range in His. cbn [map] in His. inversion His. constructor.
  - unfold in_range in His. cbn [map] in His.
    inversion His as [|s i ss is' Hi His']; subst. inversion Hm as [|e0 es0 He Hm']; subst.
    cbn [slice_coords]. constructor; [|apply IH; assumption].
    rewrite (span_size_fits e x Hx ltac:(lia)) in Hi.
    destruct Hx as [Hb [Hen Hs]].
    pose proof (Z.mul_div_le (send x - sbegin x) (sstride x) ltac:(lia)). nia.
Qed.

(** The spans of the sub-view: the argument spans, each one scaled by the
    product of the extents of the dimensions before it. *)
Lemma dyn_compute_spans : forall dbg es xs,
  Forall2 span_fits es xs -> es <> [] -> prod es < modulus ->
  exists R, dyn_compute_index dbg es (map ASpan xs) = inr (ISpans R) /\
    length R = length es /\
    Forall (fun y => 0 <= sbegin y < modulus /\ 0 <= send y < modulus /\
                     0 <= sstride y < modulus) R /\
    forall P, 1 <= P -> P * prod es < modulus ->
      map span_size (map (span_scale P) R) = map span_size xs /\
      forall is, in_range (map span_size xs) is ->
        sum_begins (map (span_scale P) R) + stride_dot (map sstride (map (span_scale P) R)) is
        = P * col_major es (slice_coords xs is).
Proof.
  intros dbg es xs H. induction H as [|e x es xs Hx H IH]; intros Hne Hp; [contradiction|].
  pose proof (prod_fits_pos es xs H) as Hp1.
  rewrite prod_cons in Hp.
  destruct Hx as [Hb [Hen Hs]] eqn:Hx'.
  assert (Hdim : dim_arg dbg e (ASpan x) = inr (ISpans [x])).
  { unfold dim_arg, debug_check. replace (e <? send x) with false by (symmetry; apply Z.ltb_ge; lia).
    rewrite andb_false_r. reflexivity. }
  assert (Hxr : 0 <= sbegin x < modulus /\ 0 <= send x < modulus /\ 0 <= sstride x < modulus)
    by nia.
  destruct H as [|e2 x2 es2 xs2 Hx2 H2].
  - exists [x]. split; [cbn [map dyn_compute_index]; rewrite Hdim; reflexivity|].
    split; [reflexivity|]. split; [constructor; [exact Hxr | constructor]|].
    intros P HP HPp. rewrite prod_single in HPp. unfold prod in Hp1. cbn in Hp1.
    split.
    + cbn [map]. f_equal. apply span_size_scale_small; nia.
    + intros is His. unfold in_range in His. cbn [map] in His.
      inversion His as [|s i ss is' Hi His']; subst. inversion His'; subst.
      cbn [map sum_begins stride_dot slice_coords col_major].
      unfold span_scale, imul. cbn [sbegin sstride].
      rewrite (to_index_small (P * sbegin x)), (to_index_small (P * sstride x)) by nia.
      ring.
  - destruct (IH ltac:(discriminate) ltac:(nia)) as [R' [HR' [HlR' [HfR' HP']]]].
    exists (x :: map (span_scale e) R'). split.
    { change (map ASpan (x :: x2 :: xs2)) with (ASpan x :: map ASpan (x2 :: xs2)).
      rewrite dyn_compute_index_cons2, Hdim. cbn [bind]. rewrite HR'. reflexivity. }
    split; [cbn [length]; rewrite length_map, HlR'; reflexivity|].
    split.
    { constructor; [exact Hxr|]. apply Forall_forall. intros y Hy.
      apply in_map_iff in Hy as [y0 [<- _]].
      unfold span_scale, imul, to_index. cbn [sbegin send sstride].
      pose proof (Z.mod_pos_bound (e * sbegin y0) modulus modulus_pos).
      pose proof (Z.mod_pos_bound (e * send y0) modulus modulus_pos).
      pose proof (Z.mod_pos_bound (e * sstride y0) modulus modulus_pos). lia. }
    intros P HP HPp. rewrite prod_cons in HPp.
    assert (Hm : map (span_scale P) (map (span_scale e) R') = map (span_scale (P * e)) R').
    { rewrite map_map. apply map_ext. intros y. apply span_scale_scale. }
    destruct (HP' (P * e) ltac:(nia) ltac:(rewrite <- Z.mul_assoc; exact HPp)) as [HA HB].
    assert (HPe : P * e < modulus).
    { assert (P * e * 1 <= P * e * prod (e2 :: es2)) by (apply Z.mul_le_mono_nonneg_l; nia).
      rewrite Z.mul_assoc in HPp. lia. }
    assert (HPen : P * send x <= P * e) by (apply Z.mul_le_mono_nonneg_l; lia).
    assert (HPst : P * sstride x <= P * e) by (apply Z.mul_le_mono_nonneg_l; lia).
    split.
    + cbn [map]. rewrite Hm, HA. f_equal. apply span_size_scale_small; lia.
    + intros is His. unfold in_range in His. cbn [map] in His.
      inversion His as [|s i ss is' Hi His']; subst.
      destruct is' as [|i2 is'']; [inversion His'|].
      change (slice_coords (x :: x2 :: xs2) (i :: i2 :: is''))
        with ((sbegin x + sstride x * i) :: slice_coords (x2 :: xs2) (i2 :: is'')).
      destruct (slice_coords (x2 :: xs2) (i2 :: is'')) as [|c2 cs] eqn:Ec.
      { cbn in Ec. discriminate Ec. }
      rewrite col_major_cons2.
      specialize (HB (i2 :: is'') His'). rewrite Ec in HB.
      cbn [map sum_begins stride_dot]. rewrite Hm.
      unfold span_scale at 1 3, imul. cbn [sbegin sstride].
      rewrite (to_index_small (P * sbegin x)), (to_index_small (P * sstride x)) by nia.
      cbn [map] in HB. nia.
Qed.

Lemma map_span_scale_1 : forall R,
  Forall (fun y => 0 <= sbegin y < modulus /\ 0 <= send y < modulus /\
                   0 <= sstride y < modulus) R ->
  map (span_scale 1) R = R.
Proof.
  intros R H. induction H as [|y R Hy H IH]; [reflexivity|].
  cbn [map]. rewrite span_scale_1 by exact Hy. rewrite IH. reflexivity.
Qed.

Lemma spans_offset_sum : forall l, spans_offset l = to_index (sum_begins l).
Proof.
  intros l. unfold spans_offset.
  assert (G : forall a, 0 <= a < modulus ->
            fold_left (fun acc x => iadd acc (sbegin x)) l a = to_index (a + sum_begins l)).
  { induction l as [|y l IH]; intros a Ha; cbn [fold_left sum_begins].
    - rewrite Z.add_0_r, to_index_small by exact Ha. reflexivity.
    - rewrite IH.
      + unfold iadd, to_index. rewrite Z.add_mod_idemp_l by (pose proof modulus_pos; lia).
        f_equal. ring.
      + unfold iadd, to_index. apply Z.mod_pos_bound. apply modulus_pos. }
  rewrite G by (pose proof modulus_pos; lia). reflexivity.
Qed.

Lemma make_view_get : forall V dbg (mem : memory V) c a i,
  container_get V dbg mem (make_view V c a) i = container_get V dbg mem c (a + i).
Proof.
  intros V dbg mem c a i. induction c as [[q|] | inner IH f]; cbn.
  - rewrite Z.add_assoc. reflexivity.
  - reflexivity.
  - rewrite IH. reflexivity.
Qed.

Lemma make_subview_strided : forall V c R,
  R <> [] ->
  Forall (fun y => 0 <= sbegin y < modulus /\ 0 <= send y < modulus /\
                   0 <= sstride y < modulus) R ->
  exists S, make_subview V c R =
              mk_tensor KSubView (SStrided S) (make_view V c (to_index (sum_begins R))) /\
            strided_extents S = map span_size R /\ strided_strides S = map sstride R.
Proof.
  intros V c [|y [|y2 R]] Hne HF; [contradiction| |].
  - exists (strided1_make y). inversion HF as [|y0 R0 Hy _]; subst.
    split; [|split; reflexivity].
    unfold make_subview. cbn [sum_begins]. rewrite Z.add_0_r, to_index_small by lia.
    reflexivity.
  - exists (strided_make (y :: y2 :: R)). split; [|split; reflexivity].
    unfold make_subview. rewrite spans_offset_sum. reflexivity.
Qed.

Lemma sum_begins_nonneg : forall R,
  Forall (fun y => 0 <= sbegin y < modulus /\ 0 <= send y < modulus /\
                   0 <= sstride y < modulus) R ->
  0 <= sum_begins R.
Proof. intros R H. induction H as [|y R Hy H IH]; cbn [sum_begins]; lia. Qed.

Lemma stride_dot_nonneg : forall R es is,
  Forall (fun y => 0 <= sbegin y < modulus /\ 0 <= send y < modulus /\
                   0 <= sstride y < modulus) R ->
  in_range es is -> 0 <= stride_dot (map sstride R) is.
Proof.
  intros R es is HR. revert es is. induction HR as [|y R Hy HR IH]; intros es is His.
  - cbn. lia.
  - destruct His as [|e i es is Hi His]; cbn [map stride_dot]; [lia|].
    specialize (IH es is His). nia.
Qed.

(** ** X13: sub-views of span arguments *)

(** Slicing a tensor with a Dynamic or a Fixed shape of extents [es] by one
    span per dimension (each within its extent, with a stride between 1 and
    the extent), when the element count fits an [index_t]: the result is a
    sub-view whose extents are the sizes of the spans, and reading it at
    in-range coordinates [is] reads the parent at [begin + stride * i] in
    each dimension. *)
Theorem subview_of_spans : forall V dbg (mem : memory V) k c es sh xs,
  (exists len, sh = SDyn (mk_dyn_shape len es)) \/ sh = SFixed es ->
  Forall2 span_fits es xs -> es <> [] -> prod es < modulus ->
  exists sub,
    tensor_at V dbg mem (mk_tensor k sh c) (map ASpan xs) = inr (Sub sub) /\
    tkind sub = KSubView /\
    shape_extents (tshape sub) = map span_size xs /\
    forall is, in_range (map span_size xs) is ->
      tensor_at V dbg mem sub (map AIdx is) =
      tensor_at V dbg mem (mk_tensor k sh c) (map AIdx (slice_coords xs is)).
Proof.
  intros V dbg mem k c es sh xs Hsh HF Hne Hp.
  destruct (dyn_compute_spans dbg es xs HF Hne Hp) as [R [HR [HlR [HRf HP]]]].
  destruct (HP 1 ltac:(lia) ltac:(lia)) as [HA HB].
  rewrite map_span_scale_1 in HA, HB by exact HRf.
  pose proof (fits_extent_small es xs HF Hp) as Hsm.
  assert (Hev : forall args, length args = length es ->
            shape_eval dbg sh args = dyn_compute_index dbg es args).
  { intros args Hl. destruct Hsh as [[len ->] | ->]; cbn [shape_eval];
      [unfold dyn_eval; cbn [dshape] | unfold fixed_eval];
      rewrite (proj2 (Nat.eqb_eq _ _) Hl); [reflexivity|].
    apply fixed_dyn_compute_index. exact Hl. }
  assert (HRne : R <> []) by (intros ->; destruct es; [contradiction | discriminate HlR]).
  destruct (make_subview_strided V c R HRne HRf) as [S [HS [HSe HSs]]].
  exists (make_subview V c R). split.
  { unfold tensor_at. cbn [tshape]. rewrite Hev.
    - rewrite HR. reflexivity.
    - rewrite length_map. symmetry. exact (Forall2_length HF). }
  rewrite HS. split; [reflexivity|]. split; [cbn [tshape shape_extents]; rewrite HSe; exact HA|].
  intros is His.
  pose proof (slice_coords_in_range es xs is HF Hsm His) as Hc.
  destruct (compute_index_col_major dbg es (slice_coords xs is) Hc Hne Hp) as [Hd _].
  pose proof (col_major_bound es (slice_coords xs is) Hc Hne) as Hb.
  specialize (HB is His).
  pose proof (sum_begins_nonneg R HRf) as Hs1.
  pose proof (stride_dot_nonneg R (map span_size xs) is HRf His) as Hs2.
  assert (Hsub : shape_eval dbg (SStrided S) (map AIdx is) =
                 inr (IOffset (to_index (stride_dot (map sstride R) is)))).
  { cbn [shape_eval]. rewrite <- HSs. apply strided_eval_dot.
    - rewrite HSe, HA. exact His.
    - rewrite HSe, HSs, !length_map. reflexivity.
    - rewrite HSe. destruct R; [contradiction | discriminate]. }
  unfold tensor_at. cbn [tshape tcont]. rewrite Hsub, Hev, Hd.
  - cbn [bind]. rewrite make_view_get.
    replace (to_index (sum_begins R) + to_index (stride_dot (map sstride R) is))
      with (col_major es (slice_coords xs is)) by (rewrite !to_index_small; lia).
    reflexivity.
  - rewrite length_map. symmetry. apply in_range_length. exact Hc.
Qed.

Lemma subview_of_spans_witness : exists sub,
  tensor_at Z true buffer6
    (mk_tensor KTensorView (SDyn (mk_dyn_shape 50 [5; 10])) (ViewC (Some 0)))
    (map ASpan [mkspan 1 5 2; mkspan 2 10 3]) = inr (Sub sub) /\
  tensor_at Z true buffer6 sub (map AIdx [1; 1]) =
  tensor_at Z true buffer6
    (mk_tensor KTensorView (SDyn (mk_dyn_shape 50 [5; 10])) (ViewC (Some 0)))
    (map AIdx (slice_coords [mkspan 1 5 2; mkspan 2 10 3] [1; 1])).
Proof.
  destruct (subview_of_spans Z true buffer6 KTensorView (ViewC (Some 0)) [5; 10]
              (SDyn (mk_dyn_shape 50 [5; 10])) [mkspan 1 5 2; mkspan 2 10 3]
              (or_introl (ex_intro _ 50 eq_refl))
              ltac:(apply Forall2_cons; [unfold span_fits; cbn; lia|];
                    apply Forall2_cons; [unfold span_fits; cbn; lia|]; apply Forall2_nil)
              ltac:(discriminate) ltac:(unfold prod, modulus; cbn; lia))
    as [sub [E [_ [_ H]]]].
  exists sub. split; [exact E|]. apply H.
  change (map span_size [mkspan 1 5 2; mkspan 2 10 3]) with [2; 2].
  repeat constructor; lia.
Defined.

(** ** Reads through a transform *)

Lemma transform_container_get : forall V rvalue dbg (mem : memory V) g t o,
  container_get V dbg mem (tcont (transform V rvalue g t)) o =
  (v <- container_get V dbg mem (tcont t) o ;; ret (g v)).
Proof.
  intros V rvalue dbg mem g [k sh c] o.
  destruct k, c as [ptr|inner f], rvalue; unfold transform; cbn [tkind tshape tcont container_get];
    rewrite ?make_view_0_get; try reflexivity;
    destruct (container_get V dbg mem inner o); reflexivity.
Qed.

Lemma make_subview_form : forall V l, exists S o, forall c,
  make_subview V c l = mk_tensor KSubView (SStrided S) (make_view V c o).
Proof.
  intros V [|x [|y l]].
  - exists (strided_make []), (spans_offset []). reflexivity.
  - exists (strided1_make x), (sbegin x). reflexivity.
  - exists (strided_make (x :: y :: l)), (spans_offset (x :: y :: l)). reflexivity.
Qed.

(** ** X14: transform maps every read *)

(** [transform(g, T)] has the shape of [T]; each linear read is [g] of the
    read of [T]; and an index expression gives on it the error [T] gives, the
    element [g v] where [T] gives [v], or a sub-view of the same shape whose
    every linear read is [g] of the read of [T]'s sub-view. *)
Theorem transform_reads : forall V rvalue dbg (mem : memory V) g t,
  tshape (transform V rvalue g t) = tshape t /\
  (forall i, tensor_lin V dbg mem (transform V rvalue g t) i =
             (v <- tensor_lin V dbg mem t i ;; ret (g v))) /\
  (forall args,
     (exists err, tensor_at V dbg mem t args = inl err /\
                  tensor_at V dbg mem (transform V rvalue g t) args = inl err) \/
     (exists v, tensor_at V dbg mem t args = inr (Elem v) /\
                tensor_at V dbg mem (transform V rvalue g t) args = inr (Elem (g v))) \/
     (exists s s', tensor_at V dbg mem t args = inr (Sub s) /\
                   tensor_at V dbg mem (transform V rvalue g t) args = inr (Sub s') /\
                   tshape s' = tshape s /\
                   forall i, tensor_lin V dbg mem s' i = (v <- tensor_lin V dbg mem s i ;; ret (g v)))).
Proof.
  intros V rvalue dbg mem g t.
  assert (Hsh : tshape (transform V rvalue g t) = tshape t).
  { destruct t as [k sh c]. unfold transform. cbn [tkind tcont].
    destruct k, c, rvalue; reflexivity. }
  split; [exact Hsh|]. split.
  - intros i. unfold tensor_lin. rewrite Hsh.
    destruct (shape_flat dbg (tshape t) i); cbn [bind]; [reflexivity|].
    apply transform_container_get.
  - intros args. unfold tensor_at. rewrite Hsh.
    destruct (shape_eval dbg (tshape t) args) as [err|[o|l]]; cbn [bind].
    + left. exists err. split; reflexivity.
    + rewrite transform_container_get.
      destruct (container_get V dbg mem (tcont t) o) as [err|v]; cbn [bind].
      * left. exists err. split; reflexivity.
      * right. left. exists v. split; reflexivity.
    + right. right. destruct (make_subview_form V l) as [S [o HS]].
      exists (make_subview V (tcont t) l), (make_subview V (tcont (transform V rvalue g t)) l).
      split; [reflexivity|]. split; [reflexivity|]. rewrite !HS.
      split; [reflexivity|]. intros i. unfold tensor_lin. cbn [tshape tcont].
      destruct (shape_flat dbg (SStrided S) i) as [err|q]; cbn [bind]; [reflexivity|].
      rewrite !make_view_get. apply transform_container_get.
Qed.

(** ** X15: trailing indices of a strided shape *)

Lemma strided_compute_index_cons2 : forall dbg e e2 shape st strides a args,
  strided_compute_index dbg (e :: e2 :: shape) (st :: strides) (a :: args) =
  (h <- strided_dim_arg dbg e st a ;;
   r <- strided_compute_index dbg (e2 :: shape) strides args ;;
   ret (ires_add h r)).
Proof. reflexivity. Qed.

(** A multi-dimensional strided shape (that of a sub-view) has no arity
    check: indices past its rank are accepted and ignored, while a Dynamic
    or a Fixed shape refuses them at compile time. *)
Theorem strided_ignores_extra_indices : forall dbg len shape strides args extra len',
  length args = length shape -> length strides = length shape ->
  strided_eval dbg (StridedN len shape strides) (args ++ extra) =
  strided_eval dbg (StridedN len shape strides) args /\
  (extra <> [] ->
     dyn_eval dbg (mk_dyn_shape len' shape) (args ++ extra) = inl Rejected /\
     fixed_eval dbg shape (args ++ extra) = inl Rejected).
Proof.
  intros dbg len shape strides args extra len' Hl Hs. split.
  - cbn [strided_eval]. revert strides args Hl Hs.
    induction shape as [|e shape IH]; intros [|st strides] [|a args] Hl Hs;
      try discriminate Hl; try discriminate Hs; [reflexivity|].
    cbn in Hl, Hs. injection Hl as Hl. injection Hs as Hs.
    destruct shape as [|e2 shape2]; [reflexivity|].
    destruct args as [|a2 args2]; [discriminate Hl|].
    destruct strides as [|st2 strides2]; [discriminate Hs|].
    cbn [app]. rewrite !strided_compute_index_cons2.
    change (a2 :: args2 ++ extra) with ((a2 :: args2) ++ extra).
    rewrite (IH (st2 :: strides2) (a2 :: args2)) by assumption.
    reflexivity.
  - intros Hne.
    assert (Hneq : Nat.eqb (length (args ++ extra)) (length shape) = false).
    { apply Nat.eqb_neq. rewrite length_app. destruct extra; [contradiction | cbn; lia]. }
    unfold dyn_eval, fixed_eval. cbn [dshape]. rewrite Hneq. split; reflexivity.
Qed.

Lemma strided_ignores_extra_indices_witness :
  strided_eval true (StridedN 10 [5; 2] [1; 50]) ([AIdx 3; AIdx 1] ++ [AIdx 7]) = inr (IOffset 53) /\
  dyn_eval true (mk_dyn_shape 10 [5; 2]) ([AIdx 3; AIdx 1] ++ [AIdx 7]) = inl Rejected.
Proof.
  destruct (strided_ignores_extra_indices true 10 [5; 2] [1; 50] [AIdx 3; AIdx 1] [AIdx 7] 10
              eq_refl eq_refl) as [H1 H2].
  split.
  - rewrite H1. vm_compute. reflexivity.
  - apply H2. discriminate.
Defined.

(** ** X16: a span whose end precedes its begin *)

(** The debug check of a span argument only compares its end with the
    extent: on a rank-1 Dynamic shape, [T(span(b, en))] with [en < b] is
    accepted whenever [en] is within the extent, and gives a sub-view whose
    extent is the wrapped-around size [2^64 - (b - en)]. *)
Theorem reversed_span_accepted : forall V dbg (mem : memory V) k c len e b en,
  0 <= en < b -> b < modulus -> en <= e ->
  exists sub,
    tensor_at V dbg mem (mk_tensor k (SDyn (mk_dyn_shape len [e])) c) [ASpan (span_make b en)]
      = inr (Sub sub) /\
    shape_extents (tshape sub) = [modulus - (b - en)].
Proof.
  intros V dbg mem k c len e b en Hen Hb He.
  assert (Hx : span_make b en = mkspan b en 1).
  { unfold span_make. rewrite !to_index_small by lia. reflexivity. }
  rewrite Hx.
  exists (make_subview V c [mkspan b en 1]). split.
  - unfold tensor_at. cbn [tshape shape_eval]. unfold dyn_eval. cbn [dshape length Nat.eqb].
    cbn [dyn_compute_index]. unfold dim_arg, debug_check. cbn [send].
    replace (e <? en) with false by (symmetry; apply Z.ltb_ge; lia).
    rewrite andb_false_r. reflexivity.
  - cbn [make_subview tshape shape_extents strided1_make strided_extents].
    unfold span_size, isub, idiv, to_index. cbn [sbegin send sstride].
    rewrite Z.div_1_r. f_equal.
    rewrite <- (Z.mod_add (en - b) 1 modulus) by (pose proof modulus_pos; lia).
    rewrite Z.mod_small by lia. lia.
Qed.

Lemma reversed_span_accepted_witness : exists sub,
  tensor_at Z true buffer6 (mk_tensor KTensorView (SDyn (mk_dyn_shape 5 [5])) (ViewC (Some 0)))
    [ASpan (span_make 3 1)] = inr (Sub sub) /\
  shape_extents (tshape sub) = [modulus - 2].
Proof.
  exact (reversed_span_accepted Z true buffer6 KTensorView (ViewC (Some 0)) 5 5 3 1
           ltac:(lia) ltac:(unfold modulus; lia) ltac:(lia)).
Defined.

(** ** X17: a TensorView over nullptr *)

(** A [TensorView] built over [nullptr] with valid extents has every
    in-range linear read stop at [ViewContainer]'s null check in a debug
    build (bad memory access), and dereference [nullptr] in a release
    build. *)
Theorem null_view_bad_access : forall V dbg (mem : memory V) rank extents t k,
  tensor_view_make V dbg rank None extents = inr t ->
  0 <= k < tensor_size V t ->
  tensor_lin V dbg mem t k = inl (if dbg then BadAccess else Undefined).
Proof.
  intros V dbg mem rank extents t k H Hk.
  unfold tensor_view_make in H.
  destruct (dyn_make dbg rank extents) as [e|s] eqn:Hs; cbn [bind] in H; [discriminate H|].
  injection H as <-. cbn [tensor_size tshape shape_size] in Hk.
  assert (Hm : dlen s < modulus).
  { unfold dyn_make in Hs.
    destruct (Nat.eqb rank 0 || Nat.eqb (length extents) 0 || Nat.ltb rank (length extents));
      [discriminate Hs|].
    destruct (debug_check dbg (existsb (fun s => s <? 0) extents) BadShape);
      cbn [bind] in Hs; [discriminate Hs|].
    injection Hs as <-. cbn [dlen]. unfold to_index. apply Z.mod_pos_bound. apply modulus_pos. }
  unfold tensor_lin. cbn [tshape tcont shape_flat]. unfold dyn_flat, debug_check.
  rewrite to_index_small by lia.
  replace (dlen s <=? k) with false by (symmetry; apply Z.leb_gt; lia).
  rewrite andb_false_r. cbn [bind container_get view_get]. destruct dbg; reflexivity.
Qed.

Lemma null_view_bad_access_witness :
  tensor_lin Z true buffer6 (mk_tensor KTensorView (SDyn (mk_dyn_shape 6 [2; 3])) (ViewC None)) 4
  = inl BadAccess.
Proof.
  exact (null_view_bad_access Z true buffer6 2 [2; 3]
           (mk_tensor KTensorView (SDyn (mk_dyn_shape 6 [2; 3])) (ViewC None)) 4
           ltac:(vm_compute; reflexivity) ltac:(cbn; lia)).
Defined.
